(** * Slitherlink editor (app.py, embedded client script): a shallow embedding

    The lattice graph (edge set and degree map keyed by strings), the
    viewport and its clamping, the pointer and keyboard handlers and the
    state codec of the client script are translated function by function.
    Numbers that the script treats as lattice coordinates are [Z]; viewport
    numbers are exact rationals [Q], so every statement about them is a
    statement over exact arithmetic. A quotient with divisor 0 is 0 in [Q]
    where the script would get [Infinity] or [NaN]; the script keeps [zoom]
    positive, and the statements that depend on a quotient assume positive
    divisors. Rendering ([draw]) and the debounced save
    ([scheduleSaveState]) change none of the variables modelled here and
    are left out of the handlers. *)

From Stdlib Require Import ZArith QArith Qminmax Qround String Ascii List Lia Lqa ZifyNat.
From stdpp Require Import base option gmap strings pretty.

Local Open Scope Z_scope.

(* ===================================================================== *)
(** * Definitions *)
(* ===================================================================== *)

(** ** Keys: [nodeKey] and [edgeKey] *)

(** A lattice node [{x, y}]. *)
Record node : Type := Node { px : Z; py : Z }.

#[global] Instance node_eq_dec : EqDecision node.
Proof. solve_decision. Defined.

(** [`${v}`] for an integer-valued number: decimal digits, a leading minus
    sign for negatives. *)
Definition numToString (v : Z) : string := pretty v.

(** [const nodeKey = (x,y) => `${x},${y}`]. *)
Definition nodeKey (x y : Z) : string :=
  numToString x +:+ "," +:+ numToString y.

(** The key of a node record, [nodeKey(a.x,a.y)]. *)
Definition keyOf (a : node) : string := nodeKey (px a) (py a).

(** [ka < kb ? ka + '|' + kb : kb + '|' + ka] on two node keys; [<] on
    strings compares code units lexicographically. *)
Definition joinKeys (ka kb : string) : string :=
  if String.ltb ka kb then ka +:+ "|" +:+ kb else kb +:+ "|" +:+ ka.

(** [const edgeKey = (a,b) => ...]. *)
Definition edgeKey (a b : node) : string := joinKeys (keyOf a) (keyOf b).

(** ** The lattice graph: [edges] and [degree] *)

(** The two maps of the script: [edges] (key -> true) and [degree]
    (node key -> number). *)
Record graph : Type := Graph {
  edges : gmap string bool;
  degree : gmap string Z
}.

Definition emptyGraph : graph := Graph ∅ ∅.

(** [v || d] where [v] is the result of [Map.get]: [undefined] and [0] are
    falsy. *)
Definition orElse (v : option Z) (d : Z) : Z :=
  match v with
  | Some n => if n =? 0 then d else n
  | None => d
  end.

(** [degree.get(key) || 0]. *)
Definition degreeOf (g : graph) (key : string) : Z := orElse (degree g !! key) 0.

(** [edges.has(k)]. *)
Definition hasKey (g : graph) (k : string) : bool :=
  bool_decide (is_Some (edges g !! k)).

(** [function addEdge(a,b)]: the returned boolean and the new graph. *)
Definition addEdge (g : graph) (a b : node) : bool * graph :=
  let k := edgeKey a b in
  if hasKey g k then (false, g)
  else
    let da := orElse (degree g !! keyOf a) 0 in
    let db := orElse (degree g !! keyOf b) 0 in
    if (2 <=? da) || (2 <=? db) then (false, g)
    else
      let e1 := <[k := true]> (edges g) in
      let d1 := <[keyOf a := da + 1]> (degree g) in
      let d2 := <[keyOf b := db + 1]> d1 in
      (true, Graph e1 d2).

(** [function removeEdge(a,b)]. The second [degree.get] reads the map
    already updated by the first [degree.set]. *)
Definition removeEdge (g : graph) (a b : node) : bool * graph :=
  let k := edgeKey a b in
  if negb (hasKey g k) then (false, g)
  else
    let e1 := delete k (edges g) in
    let d1 := <[keyOf a := orElse (degree g !! keyOf a) 1 - 1]> (degree g) in
    let d2 := <[keyOf b := orElse (d1 !! keyOf b) 1 - 1]> d1 in
    (true, Graph e1 d2).

(** Splitting a string at the first occurrence of a separator, as
    [k.split(sep)] followed by taking the first two pieces does for a key
    with one separator. *)
Fixpoint cutAt (c : ascii) (s : string) : string * string :=
  match s with
  | EmptyString => (EmptyString, EmptyString)
  | String d r =>
      if Ascii.eqb d c then (EmptyString, r)
      else let '(u, v) := cutAt c r in (String d u, v)
  end.

(** An edge key is incident to a node key when one of the two pieces
    around ['|'] is that node key. *)
Definition incident (n : string) (k : string) : bool :=
  let '(u, v) := cutAt "|"%char k in
  bool_decide (u = n) || bool_decide (v = n).

(** The number of edges of the edge set that are incident to a node. *)
Definition incidentCount (g : graph) (n : string) : nat :=
  size (filter (λ kv : string * bool, incident n kv.1 = true) (edges g)).

(** A mutation of the graph, and the run of a sequence of them. *)
Inductive op : Type :=
  | OpAdd (a b : node)
  | OpRemove (a b : node).

Definition step (g : graph) (o : op) : graph :=
  match o with
  | OpAdd a b => (addEdge g a b).2
  | OpRemove a b => (removeEdge g a b).2
  end.

Definition run (g : graph) (os : list op) : graph := fold_left step os g.

(** The endpoints of an operation are two different nodes. *)
Definition properOp (o : op) : Prop :=
  match o with
  | OpAdd a b | OpRemove a b => a ≠ b
  end.

(** ** Configuration *)

Definition COLS : Z := 128.
Definition ROWS : Z := 178.
Definition DOT_SPACING : Z := 9.
Definition EDGE_HIT_RADIUS : Q := 10.
Definition INITIAL_ZOOM : Q := 32 # 10.
Definition BORDER : Z := DOT_SPACING * 2.
Definition DRAG_THRESHOLD : Q := 6.

Definition gridWidth : Z := (COLS - 1) * DOT_SPACING.
Definition gridHeight : Z := (ROWS - 1) * DOT_SPACING.
Definition fullWidth : Q := inject_Z (gridWidth + BORDER * 2).
Definition fullHeight : Q := inject_Z (gridHeight + BORDER * 2).

(** ** Viewport and canvas *)

(** Comparisons of numbers as booleans. *)
Definition Qltb (a b : Q) : bool := negb (Qle_bool b a).

(** [viewport = { cx, cy, w, h }]. The record describes the script once
    [initialize()] has run, when the four fields hold numbers. *)
Record viewport : Type := Viewport { cx : Q; cy : Q; w : Q; h : Q }.

(** The two canvas fields the script reads: [canvas.width] and
    [canvas.height]. *)
Record canvas : Type := Canvas { width : Q; height : Q }.

(** A point [{x, y}] returned by the coordinate transforms. *)
Record point : Type := Point { ptx : Q; pty : Q }.

(** [function fullToScreen(x,y)]. *)
Definition fullToScreen (v : viewport) (c : canvas) (x y : Q) : point :=
  let l := (cx v - w v / 2)%Q in
  let t := (cy v - h v / 2)%Q in
  Point ((x - l) / w v * width c)%Q ((y - t) / h v * height c)%Q.

(** [function screenToFull(sx, sy)]. *)
Definition screenToFull (v : viewport) (c : canvas) (sx sy : Q) : point :=
  let l := (cx v - w v / 2)%Q in
  let t := (cy v - h v / 2)%Q in
  Point (l + sx / width c * w v)%Q (t + sy / height c * h v)%Q.

(** [Math.max(extent/2, Math.min(fullExtent - extent/2, c))], the clamp
    the script applies to one axis of the centre. *)
Definition clampAxis (extent fullExtent c : Q) : Q :=
  Qmax (extent / 2) (Qmin (fullExtent - extent / 2) c).

(** [a || b] on numbers: [0] is falsy. *)
Definition orElseQ (a b : Q) : Q := if Qeq_bool a 0 then b else a.

(** The pointer origin recorded by [pointerdown]:
    [{ x, y, cx, cy }]. *)
Record origin : Type := Origin { ox : Q; oy : Q; ocx : Q; ocy : Q }.

(** The mutable variables of the script. *)
Record state : Type := State {
  zoom : Q;
  view : viewport;
  canv : canvas;
  lattice : graph;
  isPointerDown : bool;
  pointerStart : option origin;
  isDragging : bool
}.

(** A pointer event: [clientX], [clientY], and the canvas offset
    [getBoundingClientRect()] reports at that moment. *)
Record pointerEvent : Type := PointerEvent {
  clientX : Q; clientY : Q; rectLeft : Q; rectTop : Q
}.


(** ** Nearest-edge search *)

(** The running best candidate of [findNearestEdgeToFull]; [None] is the
    initial [{ dist: Infinity, a: null, b: null }]. *)
Record candidate : Type := Candidate { dist : Q; enda : node; endb : node }.

(** World coordinate of lattice index [i]: [BORDER + i*DOT_SPACING]. *)
Definition worldOf (i : Z) : Q := inject_Z (BORDER + i * DOT_SPACING).

(** [Math.round]: the nearest integer, halves rounded up. *)
Definition round (q : Q) : Z := Qfloor (q + (1 # 2)).

(** One candidate edge [a]-[b]: squared distance from the query point to
    the midpoint, kept when strictly smaller than the best so far. *)
Definition consider (fullX fullY : Q) (best : option candidate) (a b : node)
  : option candidate :=
  let mx := ((1 # 2) * (worldOf (px a) + worldOf (px b)))%Q in
  let my := ((1 # 2) * (worldOf (py a) + worldOf (py b)))%Q in
  let d2 := ((mx - fullX) * (mx - fullX) + (my - fullY) * (my - fullY))%Q in
  match best with
  | None => Some (Candidate d2 a b)
  | Some c => if Qltb d2 (dist c) then Some (Candidate d2 a b) else best
  end.

(** The body of the two nested loops for one [(dx, dy)]. *)
Definition visit (fullX fullY : Q) (ix iy : Z) (best : option candidate)
  (d : Z * Z) : option candidate :=
  let nx := ix + d.1 in
  let ny := iy + d.2 in
  let best1 :=
    if (0 <=? nx) && (nx + 1 <? COLS) && (0 <=? ny) && (ny <? ROWS)
    then consider fullX fullY best (Node nx ny) (Node (nx + 1) ny)
    else best in
  if (0 <=? nx) && (nx <? COLS) && (0 <=? ny) && (ny + 1 <? ROWS)
  then consider fullX fullY best1 (Node nx ny) (Node nx (ny + 1))
  else best1.

(** [dx] from -2 to 2, and for each [dx], [dy] from -2 to 2. *)
Definition window : list (Z * Z) :=
  dx ← [-2; -1; 0; 1; 2]; dy ← [-2; -1; 0; 1; 2]; [(dx, dy)].

(** [function findNearestEdgeToFull(fullX, fullY)]. *)
Definition findNearestEdgeToFull (fullX fullY : Q) : option candidate :=
  let gx := ((fullX - inject_Z BORDER) / inject_Z DOT_SPACING)%Q in
  let gy := ((fullY - inject_Z BORDER) / inject_Z DOT_SPACING)%Q in
  let ix := round gx in
  let iy := round gy in
  fold_left (visit fullX fullY ix iy) window None.

(** ** Pointer handlers *)

Definition setView (s : state) (v : viewport) : state :=
  State (zoom s) v (canv s) (lattice s)
        (isPointerDown s) (pointerStart s) (isDragging s).

Definition setLattice (s : state) (g : graph) : state :=
  State (zoom s) (view s) (canv s) g
        (isPointerDown s) (pointerStart s) (isDragging s).

Definition setPointer (s : state) (down : bool) (o : option origin)
  (drag : bool) : state :=
  State (zoom s) (view s) (canv s) (lattice s) down o drag.

(** [Math.hypot(dx,dy) > t] for [t >= 0], without the square root. *)
Definition hypotExceeds (dx dy t : Q) : bool := Qltb (t * t) (dx * dx + dy * dy).

(** The [pointerdown] listener. *)
Definition pointerdown (s : state) (ev : pointerEvent) : state :=
  setPointer s true
    (Some (Origin (clientX ev) (clientY ev) (cx (view s)) (cy (view s))))
    false.

(** The [pointermove] listener. *)
Definition pointermove (s : state) (ev : pointerEvent) : state :=
  match isPointerDown s, pointerStart s with
  | true, Some o =>
      let dx := (clientX ev - ox o)%Q in
      let dy := (clientY ev - oy o)%Q in
      let dragging :=
        if negb (isDragging s) && hypotExceeds dx dy DRAG_THRESHOLD
        then true else isDragging s in
      let s1 := setPointer s (isPointerDown s) (pointerStart s) dragging in
      if dragging then
        let v := view s1 in
        let fx := (- dx * (w v / width (canv s1)))%Q in
        let fy := (- dy * (h v / height (canv s1)))%Q in
        setView s1
          (Viewport (clampAxis (w v) fullWidth (ocx o + fx))
                    (clampAxis (h v) fullHeight (ocy o + fy))
                    (w v) (h v))
      else s1
  | _, _ => s
  end.

(** [Math.sqrt(d) * r <= EDGE_HIT_RADIUS] without the square root: for
    [r <= 0] the left side is not positive. *)
Definition withinHitRadius (d r : Q) : bool :=
  if Qle_bool r 0 then true
  else Qle_bool (d * (r * r)) (EDGE_HIT_RADIUS * EDGE_HIT_RADIUS).

(** The tap branch of [pointerup]: toggle the nearest edge when it is
    close enough on screen. *)
Definition tap (s : state) (ev : pointerEvent) : state :=
  let sx := (clientX ev - rectLeft ev)%Q in
  let sy := (clientY ev - rectTop ev)%Q in
  let full := screenToFull (view s) (canv s) sx sy in
  match findNearestEdgeToFull (ptx full) (pty full) with
  | None => s
  | Some c =>
      if withinHitRadius (dist c) (width (canv s) / w (view s))
      then
        let k := edgeKey (enda c) (endb c) in
        if hasKey (lattice s) k
        then setLattice s (removeEdge (lattice s) (enda c) (endb c)).2
        else setLattice s (addEdge (lattice s) (enda c) (endb c)).2
      else s
  end.

(** The [pointerup] listener. When [pointerStart] is [null] the read of
    [pointerStart.x] throws and the listener stops after clearing
    [isPointerDown]. *)
Definition pointerup (s : state) (ev : pointerEvent) : state :=
  if negb (isPointerDown s) then s
  else
    let s0 := setPointer s false (pointerStart s) (isDragging s) in
    match pointerStart s0 with
    | None => s0
    | Some o =>
        let dx := (clientX ev - ox o)%Q in
        let dy := (clientY ev - oy o)%Q in
        let s1 :=
          if negb (isDragging s0) && negb (hypotExceeds dx dy DRAG_THRESHOLD)
          then tap s0 ev else s0 in
        setPointer s1 (isPointerDown s1) None false
    end.


(** ** Keyboard and resize handlers *)

Definition setZoom (s : state) (z : Q) : state :=
  State z
        (Viewport (cx (view s)) (cy (view s))
                  (width (canv s) / z) (height (canv s) / z))
        (canv s) (lattice s)
        (isPointerDown s) (pointerStart s) (isDragging s).

Definition setCx (s : state) (c : Q) : state :=
  setView s (Viewport c (cy (view s)) (w (view s)) (h (view s))).

Definition setCy (s : state) (c : Q) : state :=
  setView s (Viewport (cx (view s)) c (w (view s)) (h (view s))).

Definition keyIs (key name : string) : bool := String.eqb key name.

(** The [keydown] listener: [step] is computed once, then the six [if]
    statements run in order. *)
Definition keydown (s : state) (key : string) : state :=
  let step := Qmax 10 ((6 # 100) * Qmin (w (view s)) (h (view s))) in
  let s1 := if keyIs key "ArrowLeft"
            then setCx s (Qmax (w (view s) / 2) (cx (view s) - step)) else s in
  let s2 := if keyIs key "ArrowRight"
            then setCx s1 (Qmin (fullWidth - w (view s1) / 2) (cx (view s1) + step))
            else s1 in
  let s3 := if keyIs key "ArrowUp"
            then setCy s2 (Qmax (h (view s2) / 2) (cy (view s2) - step)) else s2 in
  let s4 := if keyIs key "ArrowDown"
            then setCy s3 (Qmin (fullHeight - h (view s3) / 2) (cy (view s3) + step))
            else s3 in
  let s5 := if keyIs key "+" || keyIs key "="
            then setZoom s4 (Qmin 8 (zoom s4 * (12 # 10))) else s4 in
  if keyIs key "-" || keyIs key "_"
  then setZoom s5 (Qmax (6 # 10) (zoom s5 / (12 # 10))) else s5.

(** [function resizeCanvas()], given the container's [clientWidth] and
    [clientHeight]. Its two [=== null] tests are false on this state type. *)
Definition resizeCanvas (s : state) (clientWidth clientHeight : Q) : state :=
  State (zoom s)
        (Viewport (cx (view s)) (cy (view s))
                  (clientWidth / zoom s) (clientHeight / zoom s))
        (Canvas clientWidth clientHeight) (lattice s)
        (isPointerDown s) (pointerStart s) (isDragging s).

(** The [resize] listener. *)
Definition resize (s : state) (clientWidth clientHeight : Q) : state :=
  let s1 := resizeCanvas s clientWidth clientHeight in
  let vw := (width (canv s1) / zoom s1)%Q in
  let vh := (height (canv s1) / zoom s1)%Q in
  setView s1
    (Viewport (clampAxis vw fullWidth (orElseQ (cx (view s1)) (vw / 2)))
              (clampAxis vh fullHeight (orElseQ (cy (view s1)) (vh / 2)))
              vw vh).

(** ** Values exchanged with the state codec *)

(** The values [JSON.parse] can return. An object is the list of its
    properties. *)
#[warnings="-register-all"]
Inductive json : Type :=
  | JNull
  | JBool (b : bool)
  | JNum (q : Q)
  | JStr (s : string)
  | JArr (items : list json)
  | JObj (props : list (string * json)).

(** [v.name] for a property name that no array, string, number or boolean
    carries by itself (the script reads [edges], [viewport], [zoom], [cx]
    and [cy]); [None] is [undefined]. *)
Definition getProp (v : json) (name : string) : option json :=
  match v with
  | JObj props => snd <$> List.find (λ p, String.eqb p.1 name) props
  | _ => None
  end.

(** Truthiness of a value. *)
Definition truthy (v : json) : bool :=
  match v with
  | JNull => false
  | JBool b => b
  | JNum q => negb (Qeq_bool q 0)
  | JStr s => negb (String.eqb s EmptyString)
  | JArr _ | JObj _ => true
  end.

(** The services of the browser the script calls. [NumberToString] is the
    conversion of a number inside a template literal; the script's own
    integers print in decimal. [None] stands for a thrown exception. *)
Class Platform : Type := {
  NumberToString : Q → string;
  NumberToString_integer : ∀ z : Z, NumberToString (inject_Z z) = numToString z;
  JSON_stringify : json → option string;
  JSON_parse : string → option json;
  TextEncoder_encode : string → list Byte.byte;
  TextDecoder_decode : list Byte.byte → string
}.

Section WithPlatform.
Context `{Platform}.

(** [`${v}`] for an arbitrary value. *)
Fixpoint toStr (v : json) : string :=
  match v with
  | JNull => "null"
  | JBool true => "true"
  | JBool false => "false"
  | JNum q => NumberToString q
  | JStr s => s
  | JArr items =>
      let piece (e : json) : string :=
        match e with JNull => EmptyString | _ => toStr e end in
      String.concat "," (List.map piece items)
  | JObj _ => "[object Object]"
  end.

(** [nodeKey(x,y)] on two raw components of a loaded tuple. *)
Definition nodeKeyOf (x y : json) : string := toStr x +:+ "," +:+ toStr y.

(** The body of the [for (const e of obj.edges)] loop of [applyState]. *)
Definition loadEdge (g : graph) (e : json) : graph :=
  match e with
  | JArr (e0 :: e1 :: e2 :: e3 :: _) =>
      let ka := nodeKeyOf e0 e1 in
      let kb := nodeKeyOf e2 e3 in
      let k := joinKeys ka kb in
      let d1 := <[ka := orElse (degree g !! ka) 0 + 1]> (degree g) in
      let d2 := <[kb := orElse (d1 !! kb) 0 + 1]> d1 in
      Graph (<[k := true]> (edges g)) d2
  | _ => g
  end.

(** The first half of [applyState]: clear both maps, then load the tuples
    when [obj.edges] is an array. *)
Definition loadEdges (obj : json) : graph :=
  match getProp obj "edges" with
  | Some (JArr items) => fold_left loadEdge items emptyGraph
  | _ => emptyGraph
  end.

(** [typeof v === "number"] on an optional property, with the number. *)
Definition asNumber (v : option json) : option Q :=
  match v with
  | Some (JNum q) => Some q
  | _ => None
  end.

(** The second half of [applyState]: the optional viewport. *)
Definition loadViewport (s : state) (obj : json) : state :=
  match getProp obj "viewport" with
  | Some vp =>
      if truthy vp && (match vp with JObj _ | JArr _ => true | _ => false end)
      then
        let z := match asNumber (getProp vp "zoom") with
                 | Some q => if Qltb 0 q then q else zoom s
                 | None => zoom s
                 end in
        let x := match asNumber (getProp vp "cx") with
                 | Some q => q | None => cx (view s) end in
        let y := match asNumber (getProp vp "cy") with
                 | Some q => q | None => cy (view s) end in
        let vw := (width (canv s) / z)%Q in
        let vh := (height (canv s) / z)%Q in
        State z
              (Viewport (clampAxis vw fullWidth x) (clampAxis vh fullHeight y) vw vh)
              (canv s) (lattice s)
              (isPointerDown s) (pointerStart s) (isDragging s)
      else s
  | None => s
  end.

(** [function applyState(obj)]. *)
Definition applyState (s : state) (obj : json) : state :=
  if negb (truthy obj) then s
  else loadViewport (setLattice s (loadEdges obj)) obj.

End WithPlatform.


Section WithPlatform.
Context `{Platform}.

(** [function initialize()], given the container size and the value
    [loadStateFromURL()] returned ([JNull] when there is none). The
    variables start as [zoom = INITIAL_ZOOM], an empty graph, no pointer
    down. *)
Definition initialize (clientWidth clientHeight : Q) (loaded : json) : state :=
  let vw := (clientWidth / INITIAL_ZOOM)%Q in
  let vh := (clientHeight / INITIAL_ZOOM)%Q in
  let s0 := State INITIAL_ZOOM (Viewport (vw / 2) (vh / 2) vw vh)
                  (Canvas clientWidth clientHeight) emptyGraph false None false in
  if truthy loaded then applyState s0 loaded
  else setView s0 (Viewport (clampAxis vw fullWidth (vw / 2))
                            (clampAxis vh fullHeight (vh / 2)) vw vh).

End WithPlatform.

(** ** Predicates on viewports *)

(** One axis of the centre lies in [[extent/2, fullExtent - extent/2]]. *)
Definition axisClamped (extent fullExtent c : Q) : Prop :=
  (extent / 2 <= c)%Q ∧ (c <= fullExtent - extent / 2)%Q.

Definition centreClamped (v : viewport) : Prop :=
  axisClamped (w v) fullWidth (cx v) ∧ axisClamped (h v) fullHeight (cy v).




(** The keys of the [keydown] listener that change the zoom. *)
Definition zoomKey (key : string) : bool :=
  keyIs key "+" || keyIs key "=" || keyIs key "-" || keyIs key "_".



(** ** Base64: [btoa] and [atob] *)

(** The base64 alphabet. *)
Definition alphabet : string :=
  "ABCDEFGHIJKLMNOPQRSTUVWXYZabcdefghijklmnopqrstuvwxyz0123456789+/".

(** The character of a 6-bit value. *)
Definition b64char (v : N) : ascii :=
  match String.get (N.to_nat v) alphabet with
  | Some c => c
  | None => "="%char
  end.

Fixpoint indexIn (c : ascii) (s : string) (i : N) : option N :=
  match s with
  | EmptyString => None
  | String d r => if Ascii.eqb c d then Some i else indexIn c r (i + 1)%N
  end.

(** The 6-bit value of a character of the alphabet. *)
Definition b64val (c : ascii) : option N := indexIn c alphabet 0%N.

Definition code (c : ascii) : N := N_of_ascii c.

(** The encoded characters of a binary string, three bytes at a time,
    without padding. *)
Fixpoint encBody (s : string) : string :=
  match s with
  | EmptyString => EmptyString
  | String a EmptyString =>
      String (b64char (code a / 4))
        (String (b64char (code a mod 4 * 16)) EmptyString)
  | String a (String b EmptyString) =>
      String (b64char (code a / 4))
        (String (b64char (code a mod 4 * 16 + code b / 16))
           (String (b64char (code b mod 16 * 4)) EmptyString))
  | String a (String b (String c r)) =>
      String (b64char (code a / 4))
        (String (b64char (code a mod 4 * 16 + code b / 16))
           (String (b64char (code b mod 16 * 4 + code c / 64))
              (String (b64char (code c mod 64)) (encBody r))))
  end%N.

(** [n] copies of ["="]. *)
Fixpoint equals (n : nat) : string :=
  match n with
  | O => EmptyString
  | S m => String "=" (equals m)
  end.

(** The padding that brings a length to a multiple of 4. *)
Definition padding (len : nat) : string := equals ((4 - len mod 4) mod 4).

(** [btoa(binary)] for a string of characters below 256. *)
Definition btoa (binary : string) : string :=
  encBody binary +:+ padding (String.length (encBody binary)).

(** ASCII whitespace: tab, line feed, form feed, carriage return, space. *)
Definition isWhitespace (c : ascii) : bool :=
  let n := code c in
  (n =? 9)%N || (n =? 10)%N || (n =? 12)%N || (n =? 13)%N || (n =? 32)%N.

Fixpoint removeWhitespace (s : string) : string :=
  match s with
  | EmptyString => EmptyString
  | String c r =>
      if isWhitespace c then removeWhitespace r else String c (removeWhitespace r)
  end.

(** Removal of one or two ["="] at the end of the data. *)
Fixpoint dropPadding (s : string) : string :=
  match s with
  | EmptyString => EmptyString
  | String c r =>
      if Ascii.eqb c "="
         && (String.eqb r EmptyString || String.eqb r "=")
      then EmptyString
      else String c (dropPadding r)
  end.

(** Decoding of the data, four characters at a time; a character outside
    the alphabet, or a single left-over character, is an error. *)
Fixpoint decodeBody (s : string) : option string :=
  match s with
  | EmptyString => Some EmptyString
  | String _ EmptyString => None
  | String a (String b EmptyString) =>
      va ← b64val a; vb ← b64val b;
      Some (String (ascii_of_N (va * 4 + vb / 16)) EmptyString)
  | String a (String b (String c EmptyString)) =>
      va ← b64val a; vb ← b64val b; vc ← b64val c;
      Some (String (ascii_of_N (va * 4 + vb / 16))
              (String (ascii_of_N (vb mod 16 * 16 + vc / 4)) EmptyString))
  | String a (String b (String c (String d r))) =>
      va ← b64val a; vb ← b64val b; vc ← b64val c; vd ← b64val d;
      rest ← decodeBody r;
      Some (String (ascii_of_N (va * 4 + vb / 16))
              (String (ascii_of_N (vb mod 16 * 16 + vc / 4))
                 (String (ascii_of_N (vc mod 4 * 64 + vd)) rest)))
  end%N.

(** [atob(data)], the forgiving base64 decoding; [None] is the
    [InvalidCharacterError] exception. *)
Definition atob (data : string) : option string :=
  let d := removeWhitespace data in
  let d1 := if (String.length d mod 4 =? 0)%nat then dropPadding d else d in
  decodeBody d1.

(** ** The state codec *)

(** [s.replace(/c/g, r)] for a single character [c]. *)
Fixpoint replaceAll (c r : ascii) (s : string) : string :=
  match s with
  | EmptyString => EmptyString
  | String d t => String (if Ascii.eqb d c then r else d) (replaceAll c r t)
  end.

(** [s.replace(/=+$/, '')]. *)
Fixpoint stripEquals (s : string) : string :=
  match s with
  | EmptyString => EmptyString
  | String c r =>
      let r1 := stripEquals r in
      if Ascii.eqb c "=" && String.eqb r1 EmptyString
      then EmptyString
      else String c r1
  end.

(** [while (s.length % 4 !== 0) s += '=';] with a bound on the number of
    rounds; three rounds always suffice. *)
Fixpoint padLoop (rounds : nat) (s : string) : string :=
  if (String.length s mod 4 =? 0)%nat then s
  else match rounds with
       | O => s
       | S k => padLoop k (s +:+ "=")
       end.

Section WithPlatform.
Context `{Platform}.

(** [function encodeStateToString(stateObj)]; the [catch] branch returns
    the empty string. *)
Definition encodeStateToString (stateObj : json) : string :=
  match JSON_stringify stateObj with
  | None => EmptyString
  | Some text =>
      let bytes := TextEncoder_encode text in
      let binary := string_of_list_byte bytes in
      let b64 := btoa binary in
      stripEquals (replaceAll "/" "_" (replaceAll "+" "-" b64))
  end.

(** [function decodeStateFromString(s)]; the [catch] branch returns
    [null]. *)
Definition decodeStateFromString (s : string) : json :=
  let s1 := replaceAll "_" "/" (replaceAll "-" "+" s) in
  let s2 := padLoop 3 s1 in
  match atob s2 with
  | None => JNull
  | Some binary =>
      let bytes := list_byte_of_string binary in
      let text := TextDecoder_decode bytes in
      match JSON_parse text with
      | None => JNull
      | Some v => v
      end
  end.

End WithPlatform.


(** A character of the base64 alphabet, and a string of such characters. *)
Definition inAlphabet (c : ascii) : bool :=
  match b64val c with Some _ => true | None => false end.

Fixpoint allInAlphabet (s : string) : bool :=
  match s with
  | EmptyString => true
  | String c r => inAlphabet c && allInAlphabet r
  end.

(** Whether a character occurs in a string. *)
Fixpoint occurs (c : ascii) (s : string) : bool :=
  match s with
  | EmptyString => false
  | String d r => Ascii.eqb d c || occurs c r
  end.


(** ** A reference platform

    A small JSON printer and reader, enough to run the codec on concrete
    state objects: numbers are decimal literals without exponent, strings
    escape only the quote and the backslash, and text is ASCII, so that the
    UTF-8 encoder and decoder move characters to bytes and back one to one. *)
Module Reference.

(** Up to [fuel] digits after the decimal point of [rem / den]. *)
Fixpoint fraction (fuel : nat) (rem den : Z) : string :=
  match fuel with
  | O => EmptyString
  | S k =>
      if rem =? 0 then EmptyString
      else String (pretty_N_char (Z.to_N (rem * 10 / den)))
             (fraction k (rem * 10 mod den) den)
  end.

Definition numberText (q : Q) : string :=
  let n := Qnum q in
  let d := Z.pos (Qden q) in
  if d =? 1 then numToString n
  else
    (if n <? 0 then "-" else EmptyString)
    +:+ numToString (Z.abs n / d)
    +:+ "." +:+ fraction 20 (Z.abs n mod d) d.

(** The quotation mark and the backslash. *)
Definition dquote : ascii := "034"%char.
Definition backslash : ascii := "092"%char.

Fixpoint quoteBody (s : string) : string :=
  match s with
  | EmptyString => EmptyString
  | String c r =>
      if Ascii.eqb c dquote || Ascii.eqb c backslash
      then String backslash (String c (quoteBody r))
      else String c (quoteBody r)
  end.

Definition quote (s : string) : string :=
  String dquote (quoteBody s +:+ String dquote EmptyString).

Fixpoint stringify (v : json) : string :=
  match v with
  | JNull => "null"
  | JBool true => "true"
  | JBool false => "false"
  | JNum q => numberText q
  | JStr s => quote s
  | JArr items => "[" +:+ String.concat "," (List.map stringify items) +:+ "]"
  | JObj props =>
      "{" +:+ String.concat ","
                (List.map (λ p : string * json, quote p.1 +:+ ":" +:+ stringify p.2)
                          props)
          +:+ "}"
  end.

Fixpoint skipSpace (s : string) : string :=
  match s with
  | String c r =>
      if Ascii.eqb c " " || (code c =? 9)%N || (code c =? 10)%N || (code c =? 13)%N
      then skipSpace r else s
  | EmptyString => s
  end.

Definition digitOf (c : ascii) : option Z :=
  let n := Z.of_N (code c) in
  if (48 <=? n) && (n <=? 57) then Some (n - 48) else None.

(** Reads digits: the value so far, the number of digits read, the rest. *)
Fixpoint readDigits (s : string) (acc : Z) (count : nat) : Z * nat * string :=
  match s with
  | String c r =>
      match digitOf c with
      | Some d => readDigits r (acc * 10 + d) (S count)
      | None => (acc, count, s)
      end
  | EmptyString => (acc, count, s)
  end.

Definition readNumber (s : string) : option (Q * string) :=
  let '(neg, s1) :=
    match s with
    | String "-" r => (true, r)
    | _ => (false, s)
    end in
  let '(whole, n1, s2) := readDigits s1 0 O in
  if (n1 =? 0)%nat then None
  else
    let '(num, den, s3) :=
      match s2 with
      | String "." r =>
          let '(all, n2, r2) := readDigits r whole O in
          if (n2 =? 0)%nat then (whole, 0, s2) else (all, 10 ^ Z.of_nat n2, r2)
      | _ => (whole, 1, s2)
      end in
    if den =? 0 then None
    else Some (Qred ((if neg then - num else num) # Z.to_pos den), s3).

(** Reads the body of a string literal after the opening quote. *)
Fixpoint readString (s : string) : option (string * string) :=
  match s with
  | EmptyString => None
  | String c r =>
      if Ascii.eqb c dquote then Some (EmptyString, r)
      else if Ascii.eqb c backslash then
        match r with
        | String e r2 =>
            '(body, rest) ← readString r2; Some (String e body, rest)
        | EmptyString => None
        end
      else '(body, rest) ← readString r; Some (String c body, rest)
  end.

Inductive mode : Type := Value | Items | Props.

Inductive parsed : Type :=
  | Val (v : json)
  | Vals (l : list json)
  | Fields (l : list (string * json)).

Definition startsWith (p s : string) : option string :=
  if String.prefix p s
  then Some (String.substring (String.length p) (String.length s - String.length p) s)
  else None.

(** Recursive descent: [Value] reads one value, [Items] the elements of an
    array up to its ["]"], [Props] the properties of an object up to its
    ["}"]. *)
Fixpoint read (fuel : nat) (m : mode) (s : string) : option (parsed * string) :=
  match fuel with
  | O => None
  | S k =>
      let s := skipSpace s in
      match m with
      | Value =>
          match s with
          | String "[" r =>
              match skipSpace r with
              | String "]" r2 => Some (Val (JArr []), r2)
              | _ =>
                  match read k Items r with
                  | Some (Vals l, r2) => Some (Val (JArr l), r2)
                  | _ => None
                  end
              end
          | String "{" r =>
              match skipSpace r with
              | String "}" r2 => Some (Val (JObj []), r2)
              | _ =>
                  match read k Props r with
                  | Some (Fields l, r2) => Some (Val (JObj l), r2)
                  | _ => None
                  end
              end
          | String c r =>
              if Ascii.eqb c dquote
              then '(body, rest) ← readString r; Some (Val (JStr body), rest)
              else
                match startsWith "null" s, startsWith "true" s,
                      startsWith "false" s with
                | Some r1, _, _ => Some (Val JNull, r1)
                | _, Some r1, _ => Some (Val (JBool true), r1)
                | _, _, Some r1 => Some (Val (JBool false), r1)
                | _, _, _ => '(q, rest) ← readNumber s; Some (Val (JNum q), rest)
                end
          | EmptyString => None
          end
      | Items =>
          match read k Value s with
          | Some (Val v, r) =>
              match skipSpace r with
              | String "]" r2 => Some (Vals [v], r2)
              | String "," r2 =>
                  match read k Items r2 with
                  | Some (Vals l, r3) => Some (Vals (v :: l), r3)
                  | _ => None
                  end
              | _ => None
              end
          | _ => None
          end
      | Props =>
          match s with
          | String c r =>
              '(name, r1) ← (if Ascii.eqb c dquote then readString r else None);
              match skipSpace r1 with
              | String ":" r2 =>
                  match read k Value r2 with
                  | Some (Val v, r3) =>
                      match skipSpace r3 with
                      | String "}" r4 => Some (Fields [(name, v)], r4)
                      | String "," r4 =>
                          match read k Props r4 with
                          | Some (Fields l, r5) => Some (Fields ((name, v) :: l), r5)
                          | _ => None
                          end
                      | _ => None
                      end
                  | _ => None
                  end
              | _ => None
              end
          | _ => None
          end
      end
  end.

(** The whole text must be one value. *)
Definition parse (text : string) : option json :=
  match read (2 * String.length text + 2) Value text with
  | Some (Val v, rest) =>
      match skipSpace rest with
      | EmptyString => Some v
      | _ => None
      end
  | _ => None
  end.

Lemma numberText_integer (z : Z) : numberText (inject_Z z) = numToString z.
Proof. reflexivity. Qed.

#[export] Instance platform : Platform := {|
  NumberToString := numberText;
  NumberToString_integer := numberText_integer;
  JSON_stringify := λ v, Some (stringify v);
  JSON_parse := parse;
  TextEncoder_encode := list_byte_of_string;
  TextDecoder_decode := string_of_list_byte
|}.

End Reference.




(** ** Derived notions used in the statements *)

(** The two separators of the keys; the decimal rendering of an integer
    contains neither. *)
Definition separator (c : ascii) : Prop := c = ","%char ∨ c = "|"%char.

(** The contribution of key [k] to the incident count of node key [n]. *)
Definition hit (n k : string) : nat := if incident n k then 1%nat else 0%nat.

(** For every node, the recorded degree is the number of incident edges
    and is at most 2. *)
Definition degreeInvariant (g : graph) : Prop :=
  ∀ n : node,
    degreeOf g (keyOf n) = Z.of_nat (incidentCount g (keyOf n))
    ∧ degreeOf g (keyOf n) ≤ 2.

(** The condition under which [addEdge] returns [false]. *)
Definition blocked (g : graph) (a b : node) : bool :=
  hasKey g (edgeKey a b)
  || (2 <=? degreeOf g (keyOf a)) || (2 <=? degreeOf g (keyOf b)).

(** The state the script is in after [initialize()] on a 900 x 600
    container without a saved state: zoom 3.2, viewport 281.25 x 187.5
    with its top-left corner on the world's. *)
Definition startState : state :=
  State INITIAL_ZOOM (Viewport (1125 # 8) (375 # 4) (1125 # 4) (375 # 2))
        (Canvas 900 600) emptyGraph false None false.

(** What the script does to one character on the way out: [+] to [-],
    then [/] to [_]. On the way back: [-] to [+], then [_] to [/]. *)
Definition there (c : ascii) : ascii :=
  let c1 := if Ascii.eqb c "+" then "-"%char else c in
  if Ascii.eqb c1 "/" then "_"%char else c1.

(** The way back for one character. *)
Definition back (c : ascii) : ascii :=
  let c1 := if Ascii.eqb c "-" then "+"%char else c in
  if Ascii.eqb c1 "_" then "/"%char else c1.

(** The URL-safe form of a string: every character through [there]. *)
Fixpoint urlSafe (s : string) : string :=
  match s with
  | EmptyString => EmptyString
  | String c r => String (there c) (urlSafe r)
  end.

(** The state object of the specification's example. *)
Definition exampleState : json :=
  JObj [("edges", JArr [JArr [JNum 0; JNum 0; JNum 1; JNum 0]]);
        ("viewport", JObj [("cx", JNum 50); ("cy", JNum 50); ("zoom", JNum 2)])].

(** A loaded state with three edges at node (5,5). *)
Definition threeAtOneNode : json :=
  JObj [("edges", JArr [JArr [JNum 5; JNum 5; JNum 6; JNum 5];
                        JArr [JNum 5; JNum 5; JNum 5; JNum 6];
                        JArr [JNum 5; JNum 5; JNum 4; JNum 5]])].

(** A state with one edge. *)
Definition oneEdgeState : state :=
  setLattice startState (addEdge emptyGraph (Node 0 0) (Node 1 0)).2.


(** The best candidate so far, if any, joins two different nodes. *)
Definition distinctEnds (best : option candidate) : Prop :=
  ∀ c, best = Some c → enda c ≠ endb c.

(** ** Proof automation *)

(** Replaces every [Qmax] and [Qmin] of the goal by a variable constrained
    by its specification, then calls linear arithmetic. *)
Ltac name_minmax :=
  repeat match goal with
    | |- context [Qmax ?a ?b] =>
        let m := fresh "m" in
        pose proof (Q.max_spec a b); set (m := Qmax a b) in *; clearbody m
    | |- context [Qmin ?a ?b] =>
        let m := fresh "m" in
        pose proof (Q.min_spec a b); set (m := Qmin a b) in *; clearbody m
    | _ : context [Qmax ?a ?b] |- _ =>
        let m := fresh "m" in
        pose proof (Q.max_spec a b); set (m := Qmax a b) in *; clearbody m
    | _ : context [Qmin ?a ?b] |- _ =>
        let m := fresh "m" in
        pose proof (Q.min_spec a b); set (m := Qmin a b) in *; clearbody m
    end.

(** Division by 2 as multiplication by 1/2, for linear arithmetic. *)
Ltac halves := unfold Qdiv in *; change (/ 2)%Q with (1 # 2)%Q in *.

Ltac minmax_lra := name_minmax; halves; lra.

(** Division and remainder by constants. *)
Ltac euclid := Z.to_euclidean_division_equations; lia.

Ltac euclid_nat := zify; Z.to_euclidean_division_equations; lia.


(** ** Notions used in the further properties *)

(** A node of the lattice. *)
Definition inLattice (n : node) : Prop :=
  0 ≤ px n < COLS ∧ 0 ≤ py n < ROWS.

(** [b] is the right or the lower neighbour of [a]. *)
Definition unitEdge (a b : node) : Prop :=
  (px b = px a + 1 ∧ py b = py a) ∨ (px b = px a ∧ py b = py a + 1).

(** Squared distance from a point to the midpoint of the edge [a]-[b]. *)
Definition midpointDistance (fullX fullY : Q) (a b : node) : Q :=
  let mx := ((1 # 2) * (worldOf (px a) + worldOf (px b)))%Q in
  let my := ((1 # 2) * (worldOf (py a) + worldOf (py b)))%Q in
  ((mx - fullX) * (mx - fullX) + (my - fullY) * (my - fullY))%Q.

(** The lattice cell the search of [findNearestEdgeToFull] is centred on. *)
Definition nearestCell (fullX fullY : Q) : Z * Z :=
  (round ((fullX - inject_Z BORDER) / inject_Z DOT_SPACING),
   round ((fullY - inject_Z BORDER) / inject_Z DOT_SPACING)).

(** The edges the search looks at: lattice edges that start at most two
    cells away from the centre cell in each axis. *)
Definition candidateEdge (cell : Z * Z) (a b : node) : Prop :=
  inLattice a ∧ inLattice b ∧ unitEdge a b
  ∧ -2 ≤ px a - cell.1 ≤ 2 ∧ -2 ≤ py a - cell.2 ≤ 2.


(** A running best candidate that is one of the edges the search looks at,
    with its own midpoint distance recorded. *)
Definition soundCandidate (fullX fullY : Q) (c : candidate) : Prop :=
  candidateEdge (nearestCell fullX fullY) (enda c) (endb c)
  ∧ dist c = midpointDistance fullX fullY (enda c) (endb c).


(** A gesture in progress: [pointerdown], then a sequence of
    [pointermove] events. *)
Definition gesture (s : state) (down : pointerEvent)
  (moves : list pointerEvent) : state :=
  fold_left pointermove moves (pointerdown s down).

(** The pointer is farther than the drag threshold from where it went
    down. *)
Definition beyondThreshold (down ev : pointerEvent) : bool :=
  hypotExceeds (clientX ev - clientX down) (clientY ev - clientY down)
    DRAG_THRESHOLD.


(** The input events the script listens to. *)
Inductive event : Type :=
  | PointerDown (ev : pointerEvent)
  | PointerMove (ev : pointerEvent)
  | PointerUp (ev : pointerEvent)
  | KeyDown (key : string)
  | Resize (clientWidth clientHeight : Q).

(** The listener of an event. *)
Definition handle (s : state) (e : event) : state :=
  match e with
  | PointerDown ev => pointerdown s ev
  | PointerMove ev => pointermove s ev
  | PointerUp ev => pointerup s ev
  | KeyDown key => keydown s key
  | Resize cw ch => resize s cw ch
  end.

(** The state after a sequence of events. *)
Definition session (s : state) (es : list event) : state :=
  fold_left handle es s.

(** Every key of the edge set is the key of an edge between two
    neighbouring nodes of the lattice. *)
Definition latticeEdges (g : graph) : Prop :=
  ∀ k, is_Some (edges g !! k) →
       ∃ a b, k = edgeKey a b ∧ inLattice a ∧ inLattice b ∧ unitEdge a b.

(** The zoom is within the range of the zoom keys and the viewport extents
    are the canvas size divided by the zoom. *)
Definition scaled (s : state) : Prop :=
  (6 # 10 <= zoom s)%Q ∧ (zoom s <= 8)%Q
  ∧ (w (view s) * zoom s == width (canv s))%Q
  ∧ (h (view s) * zoom s == height (canv s))%Q.


(** ** The token in the page address *)

(** A character that needs no escaping in a URL fragment or query: a
    letter, a digit, [-] or [_]. *)
Definition urlSafeChar (c : ascii) : bool :=
  let n := code c in
  ((65 <=? n) && (n <=? 90))%N || ((97 <=? n) && (n <=? 122))%N
  || ((48 <=? n) && (n <=? 57))%N || Ascii.eqb c "-" || Ascii.eqb c "_".

(** [s.startsWith(p) ? s.slice(p.length) : undefined]. *)
Fixpoint stripPrefix (p s : string) : option string :=
  match p with
  | EmptyString => Some s
  | String c p1 =>
      match s with
      | String d s1 => if Ascii.eqb c d then stripPrefix p1 s1 else None
      | EmptyString => None
      end
  end.

Section WithPlatform.
Context `{Platform}.

(** [function loadStateFromURL()], given [window.location.hash] and the
    value of the [state] query parameter when the query has one. *)
Definition loadStateFromURL (hash : string) (queryState : option string)
  : json :=
  match stripPrefix "#state=" hash with
  | Some payload => decodeStateFromString payload
  | None =>
      match queryState with
      | Some value => decodeStateFromString value
      | None => JNull
      end
  end.

End WithPlatform.


(** ** Exporting the state *)

(** [s.split(c)] for a one-character separator. *)
Fixpoint split (c : ascii) (s : string) : list string :=
  match s with
  | EmptyString => [EmptyString]
  | String d r =>
      if Ascii.eqb d c then EmptyString :: split c r
      else match split c r with
           | h :: t => String d h :: t
           | [] => [String d EmptyString]
           end
  end.

(** The value of a decimal digit. *)
Definition decimalDigit (c : ascii) : option Z :=
  let n := Z.of_N (code c) in
  if (48 <=? n) && (n <=? 57) then Some (n - 48) else None.

Fixpoint digitsValue (s : string) (acc : Z) : option Z :=
  match s with
  | EmptyString => Some acc
  | String c r =>
      match decimalDigit c with
      | Some d => digitsValue r (acc * 10 + d)
      | None => None
      end
  end.

(** [Number(s)] where [s] is empty or a decimal integer literal with an
    optional minus sign; [None] for every other string (for which
    [Number] gives [NaN], a fraction, or reads another notation). *)
Definition toNumber (s : string) : option Z :=
  match s with
  | EmptyString => Some 0
  | String c r =>
      if Ascii.eqb c "-"
      then match r with
           | EmptyString => None
           | _ => Z.opp <$> digitsValue r 0
           end
      else digitsValue s 0
  end.

(** The body of the [edges.forEach] callback of [exportState],
    [saveStateToURL] and [buildFullBookmarkURL]: the tuple
    [[aa[0], aa[1], bb[0], bb[1]]] of a key. [None] when the key has no
    ["|"] (the callback throws) or a component on which [toNumber] is not
    defined. *)
Definition exportTuple (k : string) : option json :=
  match split "|" k with
  | a :: b :: _ =>
      match split "," a, split "," b with
      | a0 :: a1 :: _, b0 :: b1 :: _ =>
          x1 ← toNumber a0; y1 ← toNumber a1;
          x2 ← toNumber b0; y2 ← toNumber b1;
          Some (JArr [JNum (inject_Z x1); JNum (inject_Z y1);
                      JNum (inject_Z x2); JNum (inject_Z y2)])
      | _, _ => None
      end
  | _ => None
  end.

(** [exportState()]: the state object built from the edge set, visited in
    the order [keys], and from the viewport. The script visits the keys in
    insertion order; the order is a parameter here. *)
Definition exportState (s : state) (keys : list string) : option json :=
  tuples ← mapM exportTuple keys;
  Some (JObj [("edges", JArr tuples);
              ("viewport", JObj [("cx", JNum (cx (view s)));
                                 ("cy", JNum (cy (view s)));
                                 ("zoom", JNum (zoom s))])]).

(** The number of keys of a list that are incident to a node key. *)
Fixpoint listHits (n : string) (keys : list string) : nat :=
  match keys with
  | [] => O
  | k :: r => (hit n k + listHits n r)%nat
  end.

(** The tuple of an edge given by its two nodes. *)
Definition tupleOf (a b : node) : json :=
  JArr [JNum (inject_Z (px a)); JNum (inject_Z (py a));
        JNum (inject_Z (px b)); JNum (inject_Z (py b))].

(** A key with the tuple exported for it. *)
Definition exported (k : string) (t : json) : Prop :=
  ∃ lo hi, lo ≠ hi ∧ k = edgeKey lo hi ∧ t = tupleOf lo hi.



(** The midpoint of the edge [a]-[b] in world coordinates. *)
Definition midpoint (a b : node) : point :=
  Point ((1 # 2) * (worldOf (px a) + worldOf (px b)))%Q
        ((1 # 2) * (worldOf (py a) + worldOf (py b)))%Q.

(** What a tap on the edge [a]-[b] does to the graph: remove the edge when
    it is there, otherwise try to add it. *)
Definition toggled (g : graph) (a b : node) : graph :=
  if hasKey g (edgeKey a b) then (removeEdge g a b).2 else (addEdge g a b).2.

(* ===================================================================== *)
(** * Theorems *)
(* ===================================================================== *)

(** ** Strings without a separator *)

Lemma occurs_app c s t : occurs c (s +:+ t) = occurs c s || occurs c t.
Proof.
  induction s as [|d s IH]; simpl; [done|].
  rewrite IH. by rewrite orb_assoc.
Qed.

Lemma cutAt_app c s t :
  occurs c s = false → cutAt c (s +:+ String c t) = (s, t).
Proof.
  induction s as [|d s IH]; simpl.
  - intros _. by rewrite Ascii.eqb_refl.
  - intros H. apply orb_false_iff in H as [Hd Hs].
    rewrite Hd, (IH Hs). done.
Qed.

Lemma pretty_N_char_sep c n : separator c → Ascii.eqb (pretty_N_char n) c = false.
Proof.
  intros [-> | ->]; unfold pretty_N_char; by repeat case_match.
Qed.

Lemma occurs_pretty_N_go c x s :
  separator c → occurs c s = false → occurs c (pretty_N_go x s) = false.
Proof.
  intros Hc. revert s.
  induction (N.lt_wf_0 x) as [x _ IH]; intros s Hs.
  assert (x = 0 ∨ 0 < x)%N as [-> | Hx] by lia.
  - by rewrite pretty_N_go_0.
  - rewrite pretty_N_go_step by done.
    apply IH; [by apply N.div_lt|].
    simpl. by rewrite pretty_N_char_sep, Hs.
Qed.

Lemma occurs_pretty_N c (x : N) : separator c → occurs c (pretty x) = false.
Proof.
  intros Hc. unfold pretty, pretty_N. case_decide.
  - destruct Hc as [-> | ->]; done.
  - by apply occurs_pretty_N_go.
Qed.

Lemma occurs_numToString c v : separator c → occurs c (numToString v) = false.
Proof.
  intros Hc. unfold numToString, pretty, pretty_Z. destruct v as [|p|p].
  - destruct Hc as [-> | ->]; done.
  - by apply (occurs_pretty_N c (Npos p)).
  - change (occurs c (String "-" (pretty (Npos p))) = false). simpl.
    rewrite (occurs_pretty_N c (Npos p) Hc).
    destruct Hc as [-> | ->]; done.
Qed.

Lemma occurs_bar_nodeKey x y : occurs "|" (nodeKey x y) = false.
Proof.
  unfold nodeKey. rewrite !occurs_app.
  rewrite !occurs_numToString by (by right). done.
Qed.

Lemma nodeKey_inj x y x' y' : nodeKey x y = nodeKey x' y' → x = x' ∧ y = y'.
Proof.
  unfold nodeKey. intros H.
  assert (Hc : cutAt "," (numToString x +:+ "," +:+ numToString y)
             = cutAt "," (numToString x' +:+ "," +:+ numToString y'))
    by (by rewrite H).
  change ("," +:+ numToString y) with (String "," (numToString y)) in Hc.
  change ("," +:+ numToString y') with (String "," (numToString y')) in Hc.
  rewrite !cutAt_app in Hc by (apply occurs_numToString; by left).
  injection Hc as Hx Hy.
  split; by apply (inj pretty).
Qed.

Lemma keyOf_inj a b : keyOf a = keyOf b → a = b.
Proof.
  destruct a as [ax ay], b as [bx by']. unfold keyOf. simpl.
  intros H. apply nodeKey_inj in H as [-> ->]. done.
Qed.

Lemma cutAt_join ka kb :
  occurs "|" ka = false → cutAt "|" (ka +:+ "|" +:+ kb) = (ka, kb).
Proof.
  intros H. change ("|" +:+ kb) with (String "|" kb). by apply cutAt_app.
Qed.

Lemma joinKeys_comm ka kb : joinKeys ka kb = joinKeys kb ka.
Proof.
  unfold joinKeys, String.ltb. rewrite (String.compare_antisym kb ka).
  destruct (String.compare ka kb) eqn:E; simpl; try done.
  apply String.compare_eq_iff in E. by subst.
Qed.

Lemma edgeKey_comm a b : edgeKey a b = edgeKey b a.
Proof. apply joinKeys_comm. Qed.

Lemma incident_edgeKey n a b :
  incident (keyOf n) (edgeKey a b) = true ↔ n = a ∨ n = b.
Proof.
  unfold incident, edgeKey, joinKeys.
  destruct (String.ltb (keyOf a) (keyOf b));
    rewrite cutAt_join by apply occurs_bar_nodeKey;
    rewrite orb_true_iff, !bool_decide_eq_true;
    split; intros [H | H]; subst; auto;
    apply keyOf_inj in H; subst; auto.
Qed.

(** ** Counting incident edges under insertion and deletion *)

Lemma orElse_zero v : orElse v 0 = default 0 v.
Proof. destruct v as [n|]; simpl; [|done]. destruct (Z.eqb_spec n 0); lia. Qed.

Lemma orElse_one v : 1 ≤ default 0 v → orElse v 1 = default 0 v.
Proof.
  destruct v as [n|]; simpl; [|lia]. destruct (Z.eqb_spec n 0); lia.
Qed.

Lemma hasKey_true g k : hasKey g k = true ↔ is_Some (edges g !! k).
Proof. unfold hasKey. apply bool_decide_eq_true. Qed.

Lemma hasKey_false g k : hasKey g k = false ↔ edges g !! k = None.
Proof.
  unfold hasKey. rewrite bool_decide_eq_false. symmetry. apply eq_None_not_Some.
Qed.

Lemma degreeOf_default g k : degreeOf g k = default 0 (degree g !! k).
Proof. apply orElse_zero. Qed.

Lemma count_insert (m : gmap string bool) d d' n k :
  m !! k = None →
  incidentCount (Graph (<[k := true]> m) d') n
  = (incidentCount (Graph m d) n + hit n k)%nat.
Proof.
  intros Hk. unfold incidentCount, hit. simpl.
  destruct (incident n k) eqn:E.
  - rewrite map_filter_insert_True by done.
    rewrite map_size_insert_None; [lia|].
    apply map_lookup_filter_None. by left.
  - rewrite map_filter_insert_False by (simpl; congruence).
    rewrite delete_id by done. lia.
Qed.

Lemma count_delete (m : gmap string bool) d d' n k :
  is_Some (m !! k) →
  incidentCount (Graph m d) n
  = (incidentCount (Graph (delete k m) d') n + hit n k)%nat.
Proof.
  intros [v Hk]. unfold incidentCount, hit. simpl.
  rewrite map_filter_delete.
  destruct (incident n k) eqn:E.
  - assert (Hf : filter (λ kv : string * bool, incident n kv.1 = true) m !! k
                 = Some v) by (by apply map_lookup_filter_Some).
    rewrite map_size_delete_Some by eauto.
    assert (size (filter (λ kv : string * bool, incident n kv.1 = true) m) ≠ 0%nat).
    { intros H0. apply map_size_empty_inv in H0. rewrite H0 in Hf.
      by rewrite lookup_empty in Hf. }
    lia.
  - rewrite delete_id; [lia|].
    apply map_lookup_filter_None. right. intros w _. simpl. congruence.
Qed.

Lemma hit_edgeKey n a b :
  a ≠ b →
  hit (keyOf n) (edgeKey a b)
  = ((if decide (n = a) then 1 else 0) + (if decide (n = b) then 1 else 0))%nat.
Proof.
  intros Hab. unfold hit.
  destruct (incident (keyOf n) (edgeKey a b)) eqn:E.
  - apply incident_edgeKey in E.
    destruct (decide (n = a)), (decide (n = b)); subst; try done.
    by destruct E.
  - destruct (decide (n = a)) as [->|];
      [rewrite (proj2 (incident_edgeKey a a b)) in E by auto; done|].
    destruct (decide (n = b)) as [->|];
      [rewrite (proj2 (incident_edgeKey b a b)) in E by auto; done|].
    done.
Qed.

(** ** The degree invariant *)

Lemma degreeInvariant_empty : degreeInvariant emptyGraph.
Proof.
  intros n. unfold degreeOf, incidentCount, emptyGraph. simpl.
  rewrite lookup_empty, map_filter_empty, map_size_empty. simpl. lia.
Qed.

Lemma keyOf_ne a b : a ≠ b → keyOf a ≠ keyOf b.
Proof. intros H E. by apply keyOf_inj in E. Qed.

Lemma addEdge_invariant g a b :
  a ≠ b → degreeInvariant g → degreeInvariant (addEdge g a b).2.
Proof.
  intros Hab Hg. unfold addEdge.
  destruct (hasKey g (edgeKey a b)) eqn:Hk; [done|].
  apply hasKey_false in Hk.
  rewrite !orElse_zero.
  destruct (2 <=? default 0 (degree g !! keyOf a)) eqn:Ha; [done|].
  destruct (2 <=? default 0 (degree g !! keyOf b)) eqn:Hb; [done|].
  apply Z.leb_gt in Ha, Hb. simpl.
  intros n. destruct g as [e d]. simpl in *.
  rewrite (count_insert e d) by done. rewrite hit_edgeKey by done.
  destruct (Hg n) as [Hn1 Hn2]. unfold degreeOf in *. simpl in *.
  rewrite orElse_zero in *.
  destruct (decide (n = b)) as [-> | Hnb].
  - rewrite lookup_insert_eq. simpl.
    destruct (decide (b = a)); [congruence|]. lia.
  - rewrite lookup_insert_ne by (by apply keyOf_ne).
    destruct (decide (n = a)) as [-> | Hna].
    + rewrite lookup_insert_eq. simpl. lia.
    + rewrite lookup_insert_ne by (by apply keyOf_ne). lia.
Qed.

Lemma removeEdge_invariant g a b :
  a ≠ b → degreeInvariant g → degreeInvariant (removeEdge g a b).2.
Proof.
  intros Hab Hg. unfold removeEdge.
  destruct (hasKey g (edgeKey a b)) eqn:Hk; [|done].
  apply hasKey_true in Hk. simpl.
  destruct g as [e d]. simpl in *.
  assert (Hcnt : ∀ n d', incidentCount (Graph e d) (keyOf n)
    = (incidentCount (Graph (delete (edgeKey a b) e) d') (keyOf n)
       + ((if decide (n = a) then 1 else 0) + (if decide (n = b) then 1 else 0)))%nat).
  { intros n d'. rewrite <- hit_edgeKey by done. by apply count_delete. }
  assert (Ha : 1 ≤ default 0 (d !! keyOf a)).
  { destruct (Hg a) as [H1 _]. unfold degreeOf in H1. simpl in H1.
    rewrite orElse_zero in H1. rewrite H1, (Hcnt a d).
    rewrite decide_True by done. lia. }
  assert (Hb : 1 ≤ default 0 (d !! keyOf b)).
  { destruct (Hg b) as [H1 _]. unfold degreeOf in H1. simpl in H1.
    rewrite orElse_zero in H1. rewrite H1, (Hcnt b d).
    rewrite (decide_True (P := b = b)) by done. lia. }
  rewrite (lookup_insert_ne _ (keyOf a) (keyOf b)) by (by apply keyOf_ne).
  rewrite !orElse_one by done.
  intros n. destruct (Hg n) as [Hn1 Hn2]. unfold degreeOf in *. simpl in *.
  rewrite orElse_zero in *.
  rewrite (Hcnt n (<[keyOf b:=default 0 (d !! keyOf b) - 1]>
                     (<[keyOf a:=default 0 (d !! keyOf a) - 1]> d))) in Hn1.
  destruct (decide (n = b)) as [-> | Hnb].
  - rewrite lookup_insert_eq. simpl.
    destruct (decide (b = a)); [congruence|]. lia.
  - rewrite lookup_insert_ne by (by apply keyOf_ne).
    destruct (decide (n = a)) as [-> | Hna].
    + rewrite lookup_insert_eq. simpl. lia.
    + rewrite lookup_insert_ne by (by apply keyOf_ne). lia.
Qed.

Lemma run_invariant os g :
  Forall properOp os → degreeInvariant g → degreeInvariant (run g os).
Proof.
  unfold run. revert g. induction os as [|o os IH]; intros g Hos Hg; [done|].
  inversion Hos as [|? ? Ho Hos']; subst. simpl. apply IH; [done|].
  destruct o as [a b | a b]; simpl in *.
  - by apply addEdge_invariant.
  - by apply removeEdge_invariant.
Qed.

(** C1. Starting from the empty graph, after every operation of a sequence
    of [addEdge] and [removeEdge] calls (each on two different nodes, which
    covers the lattice-adjacent pairs the operations are called with), and
    for every node [n], the degree recorded for [n] equals the number of
    edges of the edge set incident to [n], and is at most 2. *)
Theorem degree_invariant_after_every_operation (os : list op) (i : nat) (n : node) :
  Forall properOp os →
  let g := run emptyGraph (take i os) in
  degreeOf g (keyOf n) = Z.of_nat (incidentCount g (keyOf n))
  ∧ degreeOf g (keyOf n) ≤ 2.
Proof.
  intros Hos g. subst g.
  apply run_invariant; [|apply degreeInvariant_empty].
  by apply Forall_take.
Qed.

Lemma degree_invariant_witness :
  let os := [OpAdd (Node 5 5) (Node 6 5); OpAdd (Node 5 5) (Node 5 6);
             OpAdd (Node 5 5) (Node 4 5); OpRemove (Node 6 5) (Node 5 5)] in
  Forall properOp os
  ∧ (degreeOf (run emptyGraph (take 3 os)) (keyOf (Node 5 5))
     = Z.of_nat (incidentCount (run emptyGraph (take 3 os)) (keyOf (Node 5 5)))
     ∧ degreeOf (run emptyGraph (take 3 os)) (keyOf (Node 5 5)) ≤ 2).
Proof.
  intros os. split.
  - repeat constructor; discriminate.
  - apply (degree_invariant_after_every_operation os 3 (Node 5 5)).
    repeat constructor; discriminate.
Defined.

(** The worked example of the specification: two edges at (5,5) are
    accepted, a third one is rejected and the edge set keeps two edges;
    removing one with its endpoints swapped brings the degree back to 1. *)
Example degree_cap_example :
  let g2 := run emptyGraph [OpAdd (Node 5 5) (Node 6 5); OpAdd (Node 5 5) (Node 5 6)] in
  degreeOf g2 (keyOf (Node 5 5)) = 2
  ∧ (addEdge g2 (Node 5 5) (Node 4 5)).1 = false
  ∧ size (edges (addEdge g2 (Node 5 5) (Node 4 5)).2) = 2%nat
  ∧ degreeOf (removeEdge g2 (Node 6 5) (Node 5 5)).2 (keyOf (Node 5 5)) = 1.
Proof. vm_compute. done. Qed.

(** ** [addEdge]: rejection and success *)

Lemma addEdge_blocked g a b : blocked g a b = true → addEdge g a b = (false, g).
Proof.
  unfold blocked, addEdge, degreeOf. intros H.
  destruct (hasKey g (edgeKey a b)); [done|]. simpl in H. by rewrite H.
Qed.

Lemma addEdge_free g a b :
  blocked g a b = false →
  addEdge g a b
  = (true, Graph (<[edgeKey a b := true]> (edges g))
             (<[keyOf b := degreeOf g (keyOf b) + 1]>
                (<[keyOf a := degreeOf g (keyOf a) + 1]> (degree g)))).
Proof.
  unfold blocked, addEdge, degreeOf. intros H.
  destruct (hasKey g (edgeKey a b)); [done|]. simpl in H. by rewrite H.
Qed.

(** C3 (amended). [addEdge(a,b)] returns [false] exactly when the edge is
    already present or an endpoint has degree at least 2, and then the
    graph (edge set and degree map) is unchanged; otherwise it returns
    [true], the edge set gains the canonical key, both endpoints' degrees
    grow by one and no other degree entry changes. A second [addEdge(a,b)]
    right after the first never changes the edge set. *)
Theorem addEdge_rejects_iff_present_or_saturated (g : graph) (a b : node) :
  ((addEdge g a b).1 = false ↔
     hasKey g (edgeKey a b) = true
     ∨ 2 ≤ degreeOf g (keyOf a) ∨ 2 ≤ degreeOf g (keyOf b))
  ∧ ((addEdge g a b).1 = false → (addEdge g a b).2 = g)
  ∧ ((addEdge g a b).1 = true →
       edges (addEdge g a b).2 = <[edgeKey a b := true]> (edges g)
       ∧ degreeOf (addEdge g a b).2 (keyOf a) = degreeOf g (keyOf a) + 1
       ∧ degreeOf (addEdge g a b).2 (keyOf b) = degreeOf g (keyOf b) + 1
       ∧ ∀ k, k ≠ keyOf a → k ≠ keyOf b →
           degree (addEdge g a b).2 !! k = degree g !! k)
  ∧ edges (addEdge (addEdge g a b).2 a b).2 = edges (addEdge g a b).2.
Proof.
  assert (Hb : blocked g a b = true ↔
               hasKey g (edgeKey a b) = true
               ∨ 2 ≤ degreeOf g (keyOf a) ∨ 2 ≤ degreeOf g (keyOf b)).
  { unfold blocked. rewrite !orb_true_iff, !Z.leb_le. tauto. }
  destruct (blocked g a b) eqn:E.
  - rewrite (addEdge_blocked g a b E). simpl.
    rewrite (addEdge_blocked g a b E). simpl.
    split; [|done]. split; [intros _|done]. by apply Hb.
  - rewrite (addEdge_free g a b E). simpl.
    split; [|split; [|split]].
    + split; [done|]. intros H. apply Hb in H. done.
    + done.
    + intros _. split; [done|].
      rewrite !degreeOf_default. simpl.
      split; [|split].
      * destruct (decide (a = b)) as [-> | Hab].
        -- by rewrite lookup_insert_eq.
        -- rewrite lookup_insert_ne by (apply keyOf_ne; congruence).
           by rewrite lookup_insert_eq.
      * by rewrite lookup_insert_eq.
      * intros k Ha Hk. by rewrite !lookup_insert_ne.
    + rewrite addEdge_blocked; [done|].
      unfold blocked, hasKey. simpl.
      rewrite lookup_insert_eq. rewrite bool_decide_eq_true_2 by eauto. done.
Qed.

(** ** Coordinate transforms *)

Lemma Qpos_nonzero (q : Q) : (0 < q)%Q → ¬ (q == 0)%Q.
Proof. intros Hq E. rewrite E in Hq. by apply Qlt_irrefl in Hq. Qed.

(** C9. For a viewport with positive extents on a canvas with positive
    dimensions, over exact arithmetic, [screenToFull] undoes
    [fullToScreen] at every point, and [fullToScreen] undoes
    [screenToFull]: the two transforms are mutual inverses. *)
Theorem screenToFull_fullToScreen_inverse (v : viewport) (c : canvas) (x y : Q) :
  (0 < w v)%Q → (0 < h v)%Q → (0 < width c)%Q → (0 < height c)%Q →
  (ptx (screenToFull v c (ptx (fullToScreen v c x y)) (pty (fullToScreen v c x y)))
     == x
   ∧ pty (screenToFull v c (ptx (fullToScreen v c x y)) (pty (fullToScreen v c x y)))
     == y)%Q
  ∧ (ptx (fullToScreen v c (ptx (screenToFull v c x y)) (pty (screenToFull v c x y)))
       == x
     ∧ pty (fullToScreen v c (ptx (screenToFull v c x y)) (pty (screenToFull v c x y)))
       == y)%Q.
Proof.
  intros Hw Hh Hcw Hch.
  apply Qpos_nonzero in Hw, Hh, Hcw, Hch.
  unfold screenToFull, fullToScreen. simpl.
  repeat split; field; auto.
Qed.

Lemma transform_inverse_witness :
  let v := Viewport 140 94 280 188 in
  let c := Canvas 896 600 in
  (ptx (screenToFull v c (ptx (fullToScreen v c 63 72)) (pty (fullToScreen v c 63 72)))
     == 63
   ∧ pty (screenToFull v c (ptx (fullToScreen v c 63 72)) (pty (fullToScreen v c 63 72)))
     == 72)%Q
  ∧ (ptx (fullToScreen v c (ptx (screenToFull v c 63 72)) (pty (screenToFull v c 63 72)))
       == 63
     ∧ pty (fullToScreen v c (ptx (screenToFull v c 63 72)) (pty (screenToFull v c 63 72)))
       == 72)%Q.
Proof.
  intros v c.
  apply (screenToFull_fullToScreen_inverse v c 63 72); reflexivity.
Defined.

(** ** Frame properties of the handlers *)

Lemma lattice_setCx s c : lattice (setCx s c) = lattice s.
Proof. done. Qed.

Lemma lattice_setCy s c : lattice (setCy s c) = lattice s.
Proof. done. Qed.

Lemma lattice_setZoom s z : lattice (setZoom s z) = lattice s.
Proof. done. Qed.

Lemma lattice_pointermove s ev : lattice (pointermove s ev) = lattice s.
Proof.
  unfold pointermove.
  destruct (isPointerDown s); [|done].
  destruct (pointerStart s) as [o|]; [|done].
  by repeat case_match.
Qed.

Lemma lattice_keydown s key : lattice (keydown s key) = lattice s.
Proof.
  unfold keydown.
  repeat match goal with
         | |- context [if ?b then _ else _] => destruct b
         end;
    by rewrite ?lattice_setZoom, ?lattice_setCy, ?lattice_setCx.
Qed.

Lemma tap_viewport s ev :
  zoom (tap s ev) = zoom s ∧ view (tap s ev) = view s ∧ canv (tap s ev) = canv s.
Proof. unfold tap. by repeat case_match. Qed.

Lemma pointerup_viewport s ev :
  zoom (pointerup s ev) = zoom s
  ∧ view (pointerup s ev) = view s
  ∧ canv (pointerup s ev) = canv s.
Proof.
  unfold pointerup.
  destruct (isPointerDown s); simpl; [|done].
  destruct (pointerStart s) as [o|]; simpl; [|done].
  case_match; [|done]. simpl.
  apply (tap_viewport (setPointer s false (Some o) (isDragging s)) ev).
Qed.

(** C10. A pointer move (whether or not it pans) and a key press (arrow
    keys, zoom keys or any other key) leave the edge set and the degree map
    as they were; a pointer release, and so a tap that toggles an edge,
    leaves [zoom], the four viewport fields and the canvas size as they
    were. *)
Theorem pan_zoom_and_tap_frames (s : state) (ev : pointerEvent) (key : string) :
  (edges (lattice (pointermove s ev)) = edges (lattice s)
   ∧ degree (lattice (pointermove s ev)) = degree (lattice s))
  ∧ (edges (lattice (keydown s key)) = edges (lattice s)
     ∧ degree (lattice (keydown s key)) = degree (lattice s))
  ∧ (zoom (pointerup s ev) = zoom s
     ∧ cx (view (pointerup s ev)) = cx (view s)
     ∧ cy (view (pointerup s ev)) = cy (view s)
     ∧ w (view (pointerup s ev)) = w (view s)
     ∧ h (view (pointerup s ev)) = h (view s)).
Proof.
  rewrite lattice_pointermove, lattice_keydown.
  destruct (pointerup_viewport s ev) as (-> & -> & _). done.
Qed.

(** ** Clamping the viewport centre *)






Section ViewportBounds.
Context `{Platform}.



End ViewportBounds.


(** C8: the [-] key on the start state. The zoom goes from 3.2 to 8/3 and
    the viewport grows to 337.5 x 225, but the centre stays at
    (140.625, 93.75): it is now left of [w/2] and above [h/2], so the
    viewport shows world coordinates below 0. The centre is not put through
    the clamp, as the resize listener and [applyState] do after they
    recompute [w] and [h]. *)
Theorem zoom_out_key_leaves_centre_unclamped :
  let s := keydown startState "-" in
  (zoom s == 8 # 3)%Q
  ∧ (w (view s) == 675 # 2)%Q ∧ (h (view s) == 225)%Q
  ∧ (cx (view s) == 1125 # 8)%Q ∧ (cy (view s) == 375 # 4)%Q
  ∧ (cx (view s) < w (view s) / 2)%Q
  ∧ (cx (view s) - w (view s) / 2 < 0)%Q
  ∧ ¬ (cx (view s) == clampAxis (w (view s)) fullWidth (cx (view s)))%Q.
Proof.
  vm_compute. repeat split; try done; intros E; try done.
Qed.

(** ** Base64 decoding undoes encoding *)

Lemma b64val_b64char v : (v < 64)%N → b64val (b64char v) = Some v.
Proof.
  intros Hv. destruct v as [|p]; [reflexivity|].
  do 6 (try destruct p as [p|p|]); try reflexivity; lia.
Qed.

Lemma code_bound c : (code c < 256)%N.
Proof. apply N_ascii_bounded. Qed.

Lemma ascii_of_code c : ascii_of_N (code c) = c.
Proof. apply ascii_N_embedding. Qed.

Lemma sextet1 a : (a < 256 → a / 4 < 64)%N.
Proof. intros. zify. euclid. Qed.

Lemma sextet2 a b : (a < 256 → b < 256 → a mod 4 * 16 + b / 16 < 64)%N.
Proof. intros. zify. euclid. Qed.

Lemma sextet3 b c : (b < 256 → c < 256 → b mod 16 * 4 + c / 64 < 64)%N.
Proof. intros. zify. euclid. Qed.

Lemma sextet4 c : (c mod 64 < 64)%N.
Proof. intros. zify. euclid. Qed.

Lemma byte1 a b :
  (b < 256 → a / 4 * 4 + (a mod 4 * 16 + b / 16) / 16 = a)%N.
Proof. intros. zify. euclid. Qed.

Lemma byte2 a b c :
  (b < 256 → c < 256 →
   (a mod 4 * 16 + b / 16) mod 16 * 16 + (b mod 16 * 4 + c / 64) / 4 = b)%N.
Proof. intros. zify. euclid. Qed.

Lemma byte3 b c :
  (c < 256 → (b mod 16 * 4 + c / 64) mod 4 * 64 + c mod 64 = c)%N.
Proof. intros. zify. euclid. Qed.

Lemma tail1 a : (a / 4 * 4 + a mod 4 * 16 / 16 = a)%N.
Proof. zify. euclid. Qed.

Lemma tail1_bound a : (a mod 4 * 16 < 64)%N.
Proof. zify. euclid. Qed.

Lemma tail2 a b :
  (b < 256 → (a mod 4 * 16 + b / 16) mod 16 * 16 + b mod 16 * 4 / 4 = b)%N.
Proof. intros. zify. euclid. Qed.

Lemma tail2_bound b : (b mod 16 * 4 < 64)%N.
Proof. zify. euclid. Qed.

Lemma string_ind3 (P : string → Prop) :
  P EmptyString →
  (∀ a, P (String a EmptyString)) →
  (∀ a b, P (String a (String b EmptyString))) →
  (∀ a b c r, P r → P (String a (String b (String c r)))) →
  ∀ s, P s.
Proof.
  intros H0 H1 H2 H3 s.
  cut (P s ∧ (∀ a, P (String a s)) ∧ (∀ a b, P (String a (String b s)))).
  { by intros [? _]. }
  induction s as [|c s (IH0 & IH1 & IH2)].
  - auto.
  - split; [apply IH1|]. split; [intros a; apply IH2|].
    intros a b. by apply H3.
Qed.

Lemma decodeBody_encBody s : decodeBody (encBody s) = Some s.
Proof.
  induction s as [|a|a b|a b c r IH] using string_ind3.
  - reflexivity.
  - pose proof (code_bound a).
    cbn [encBody decodeBody].
    rewrite !b64val_b64char by auto using sextet1, tail1_bound.
    cbn. by rewrite tail1, ascii_of_code.
  - pose proof (code_bound a). pose proof (code_bound b).
    cbn [encBody decodeBody].
    rewrite !b64val_b64char by auto using sextet1, sextet2, tail2_bound.
    cbn. by rewrite byte1, tail2, !ascii_of_code.
  - pose proof (code_bound a). pose proof (code_bound b).
    pose proof (code_bound c).
    cbn [encBody decodeBody].
    rewrite !b64val_b64char by auto using sextet1, sextet2, sextet3, sextet4.
    rewrite IH. cbn.
    by rewrite byte1, byte2, byte3, !ascii_of_code.
Qed.

Lemma inAlphabet_b64char v : (v < 64)%N → inAlphabet (b64char v) = true.
Proof. intros Hv. unfold inAlphabet. by rewrite b64val_b64char. Qed.

Lemma encBody_alphabet s : allInAlphabet (encBody s) = true.
Proof.
  induction s as [|a|a b|a b c r IH] using string_ind3.
  - reflexivity.
  - pose proof (code_bound a). cbn [encBody allInAlphabet].
    by rewrite !inAlphabet_b64char by auto using sextet1, tail1_bound.
  - pose proof (code_bound a). pose proof (code_bound b).
    cbn [encBody allInAlphabet].
    by rewrite !inAlphabet_b64char by auto using sextet1, sextet2, tail2_bound.
  - pose proof (code_bound a). pose proof (code_bound b).
    pose proof (code_bound c). cbn [encBody allInAlphabet].
    rewrite !inAlphabet_b64char by auto using sextet1, sextet2, sextet3, sextet4.
    by rewrite IH.
Qed.

Lemma alphabet_char c :
  inAlphabet c = true →
  isWhitespace c = false ∧ Ascii.eqb c "=" = false
  ∧ Ascii.eqb (there c) "=" = false ∧ back (there c) = c.
Proof.
  destruct c as [[] [] [] [] [] [] [] []]; vm_compute; intros E;
    first [discriminate E | done].
Qed.

Lemma replaceAll_urlSafe s :
  replaceAll "/" "_" (replaceAll "+" "-" s) = urlSafe s.
Proof. induction s as [|c s IH]; simpl; [done|]. by rewrite IH. Qed.

Lemma urlSafe_app s t : urlSafe (s +:+ t) = urlSafe s +:+ urlSafe t.
Proof. induction s as [|c s IH]; simpl; [done|]. by rewrite IH. Qed.

Lemma urlSafe_equals n : urlSafe (equals n) = equals n.
Proof. induction n as [|n IH]; simpl; [done|]. by rewrite IH. Qed.

Lemma urlSafe_length s : String.length (urlSafe s) = String.length s.
Proof. induction s as [|c s IH]; simpl; [done|]. by rewrite IH. Qed.

Lemma back_urlSafe s :
  allInAlphabet s = true →
  replaceAll "_" "/" (replaceAll "-" "+" (urlSafe s)) = s.
Proof.
  induction s as [|c s IH]; simpl; [done|].
  intros Hc. apply andb_true_iff in Hc as [Hc Hs].
  rewrite (IH Hs). f_equal.
  apply alphabet_char in Hc as (_ & _ & _ & Hb). exact Hb.
Qed.

Lemma stripEquals_equals n : stripEquals (equals n) = EmptyString.
Proof. induction n as [|n IH]; simpl; [done|]. by rewrite IH. Qed.

Lemma stripEquals_urlSafe s n :
  allInAlphabet s = true → stripEquals (urlSafe s +:+ equals n) = urlSafe s.
Proof.
  induction s as [|c s IH]; simpl.
  - intros _. apply stripEquals_equals.
  - intros Hc. apply andb_true_iff in Hc as [Hc Hs].
    rewrite (IH Hs).
    apply alphabet_char in Hc as (_ & _ & -> & _). done.
Qed.

Lemma removeWhitespace_equals n : removeWhitespace (equals n) = equals n.
Proof. induction n as [|n IH]; simpl; [done|]. by rewrite IH. Qed.

Lemma removeWhitespace_alphabet s n :
  allInAlphabet s = true →
  removeWhitespace (s +:+ equals n) = s +:+ equals n.
Proof.
  induction s as [|c s IH]; simpl.
  - intros _. apply removeWhitespace_equals.
  - intros Hc. apply andb_true_iff in Hc as [Hc Hs].
    apply alphabet_char in Hc as (-> & _). by rewrite (IH Hs).
Qed.

Lemma dropPadding_alphabet s n :
  (n <= 2)%nat → allInAlphabet s = true → dropPadding (s +:+ equals n) = s.
Proof.
  intros Hn. induction s as [|c s IH]; simpl.
  - intros _. destruct n as [|[|[|n]]]; try reflexivity. lia.
  - intros Hc. apply andb_true_iff in Hc as [Hc Hs].
    apply alphabet_char in Hc as (_ & -> & _). simpl. by rewrite (IH Hs).
Qed.

Lemma length_app s t :
  String.length (s +:+ t) = (String.length s + String.length t)%nat.
Proof. induction s as [|c s IH]; simpl; [done|]. by rewrite IH. Qed.

Lemma length_equals n : String.length (equals n) = n.
Proof. induction n as [|n IH]; simpl; [done|]. by rewrite IH. Qed.

(** The encoded body never has a length of the form [4k + 1]. *)
Lemma encBody_length s : (String.length (encBody s) mod 4 ≠ 1)%nat.
Proof.
  induction s as [|a|a b|a b c r IH] using string_ind3;
    cbn [encBody String.length]; try (vm_compute; lia).
  revert IH. generalize (String.length (encBody r)). intros n Hn. euclid_nat.
Qed.

Lemma padding_short n : (n mod 4 ≠ 1 → (4 - n mod 4) mod 4 <= 2)%nat.
Proof. intros. euclid_nat. Qed.

Lemma padded_length n : ((n + (4 - n mod 4) mod 4) mod 4 = 0)%nat.
Proof. euclid_nat. Qed.

Theorem atob_btoa (binary : string) : atob (btoa binary) = Some binary.
Proof.
  unfold atob, btoa, padding.
  pose proof (encBody_alphabet binary) as Ha.
  pose proof (padding_short _ (encBody_length binary)) as Hp.
  rewrite removeWhitespace_alphabet by done.
  rewrite length_app, length_equals, padded_length. simpl.
  rewrite dropPadding_alphabet by done.
  apply decodeBody_encBody.
Qed.

Lemma append_cons c s t : String c s +:+ t = String c (s +:+ t).
Proof. reflexivity. Qed.

Lemma append_assoc s t u : (s +:+ t) +:+ u = s +:+ (t +:+ u).
Proof.
  induction s as [|c s IH]; [done|]. by rewrite !append_cons, IH.
Qed.

Lemma equals_snoc n : equals n +:+ "=" = equals (S n).
Proof.
  induction n as [|n IH]; [done|].
  cbn [equals]. by rewrite append_cons, IH.
Qed.

Lemma append_empty s : s +:+ EmptyString = s.
Proof.
  induction s as [|c s IH]; [done|]. by rewrite append_cons, IH.
Qed.

(** The padding loop stops, within three rounds, exactly at the padding
    [btoa] had added. *)
Lemma padLoop_padding k s :
  ((4 - String.length s mod 4) mod 4 <= k)%nat →
  padLoop k s = s +:+ padding (String.length s).
Proof.
  unfold padding. revert s. induction k as [|k IH]; intros s Hk.
  - assert (E : ((4 - String.length s mod 4) mod 4 = 0)%nat) by lia.
    rewrite E. cbn [equals]. rewrite append_empty.
    cbn [padLoop]. by destruct (String.length s mod 4 =? 0)%nat.
  - cbn [padLoop].
    destruct (Nat.eqb_spec (String.length s mod 4) 0) as [E | E].
    + rewrite E. cbn. by rewrite append_empty.
    + assert (Hlen : String.length (s +:+ "=") = S (String.length s))
        by (rewrite length_app; simpl; lia).
      rewrite IH; rewrite Hlen.
      * rewrite append_assoc. f_equal.
        assert (E2 : ((4 - String.length s mod 4) mod 4
                      = S ((4 - S (String.length s) mod 4) mod 4))%nat)
          by (revert E; generalize (String.length s); intros; euclid_nat).
        rewrite E2.
        generalize ((4 - S (String.length s) mod 4) mod 4)%nat. intros n.
        change (String "=" EmptyString +:+ equals n) with (equals (S n)).
        done.
      * revert Hk E. generalize (String.length s). intros. euclid_nat.
Qed.

Lemma padLoop_three s : padLoop 3 s = s +:+ padding (String.length s).
Proof.
  apply padLoop_padding. generalize (String.length s). intros. euclid_nat.
Qed.

(** ** The state codec *)

Section Codec.
Context `{Platform}.

(** The token of a binary string decodes, after the script's character
    substitutions and padding loop, to that binary string. *)
Lemma token_transport (binary : string) :
  atob (padLoop 3 (replaceAll "_" "/" (replaceAll "-" "+"
         (stripEquals (replaceAll "/" "_" (replaceAll "+" "-" (btoa binary)))))))
  = Some binary.
Proof.
  pose proof (encBody_alphabet binary) as Ha.
  rewrite replaceAll_urlSafe. unfold btoa at 1.
  rewrite urlSafe_app. unfold padding at 1. rewrite urlSafe_equals.
  rewrite stripEquals_urlSafe by done.
  rewrite back_urlSafe by done.
  rewrite padLoop_three. apply atob_btoa.
Qed.

(** C2. For a state object [s] that [JSON.stringify] turns into a text
    which [JSON.parse] reads back as [s] and which survives UTF-8 encoding
    and decoding (as is the case for finite viewport numbers and a list of
    4-tuples of integers), decoding the encoded token returns [s]. *)
Theorem decode_encode_roundtrip (s : json) (text : string) :
  JSON_stringify s = Some text →
  TextDecoder_decode (TextEncoder_encode text) = text →
  JSON_parse text = Some s →
  decodeStateFromString (encodeStateToString s) = s.
Proof.
  intros Hs Hu Hp. unfold decodeStateFromString, encodeStateToString.
  rewrite Hs, token_transport.
  rewrite list_byte_of_string_of_list_byte, Hu, Hp. done.
Qed.

(** C4 (amended). [decodeStateFromString] returns a value for every input
    string: [null] when base64 decoding fails, [null] when the text is not
    JSON, and otherwise the parsed value itself, whatever its shape. *)
Theorem decode_total_null_on_failure (s : string) :
  let data := padLoop 3 (replaceAll "_" "/" (replaceAll "-" "+" s)) in
  (atob data = None → decodeStateFromString s = JNull)
  ∧ (∀ binary,
       atob data = Some binary →
       JSON_parse (TextDecoder_decode (list_byte_of_string binary)) = None →
       decodeStateFromString s = JNull)
  ∧ (∀ binary v,
       atob data = Some binary →
       JSON_parse (TextDecoder_decode (list_byte_of_string binary)) = Some v →
       decodeStateFromString s = v).
Proof.
  unfold decodeStateFromString. simpl.
  split; [by intros ->|].
  split; [by intros binary -> ->|by intros binary v -> ->].
Qed.

End Codec.

Lemma roundtrip_witness :
  @decodeStateFromString Reference.platform
    (@encodeStateToString Reference.platform exampleState)
  = exampleState.
Proof.
  apply (@decode_encode_roundtrip Reference.platform exampleState
           (Reference.stringify exampleState)); reflexivity.
Defined.

(** The token of the example, and a state with fractional viewport
    numbers, on the reference platform. *)
Example example_token :
  @encodeStateToString Reference.platform exampleState
  = "eyJlZGdlcyI6W1swLDAsMSwwXV0sInZpZXdwb3J0Ijp7ImN4Ijo1MCwiY3kiOjUwLCJ6b29tIjoyfX0".
Proof. vm_compute. reflexivity. Qed.

Example fractional_roundtrip :
  let s := JObj [("edges", JArr []);
                 ("viewport", JObj [("cx", JNum (1125 # 8)); ("cy", JNum (375 # 4));
                                    ("zoom", JNum (16 # 5))])] in
  @decodeStateFromString Reference.platform
    (@encodeStateToString Reference.platform s)
  = JObj [("edges", JArr []);
          ("viewport", JObj [("cx", JNum (1125 # 8)); ("cy", JNum (375 # 4));
                             ("zoom", JNum (16 # 5))])].
Proof. vm_compute. reflexivity. Qed.

(** C4, as stated, fails for a value of the wrong shape: the token ["W10"]
    is the base64 of ["[]"], and decoding it returns the empty array, not
    [null]. Invalid base64 (["!!"]) and invalid JSON (["e30x"], the base64
    of ["{}1"]) do give [null]. *)
Lemma wrong_shape_is_not_null :
  @decodeStateFromString Reference.platform "W10" = JArr []
  ∧ @decodeStateFromString Reference.platform "W10" ≠ JNull
  ∧ @decodeStateFromString Reference.platform "!!" = JNull
  ∧ @decodeStateFromString Reference.platform "e30x" = JNull.
Proof. vm_compute. repeat split; done. Qed.

(** ** Bulk load: [applyState] *)

Section BulkLoad.
Context `{Platform}.

Lemma lattice_loadViewport s obj : lattice (loadViewport s obj) = lattice s.
Proof. unfold loadViewport. by repeat case_match. Qed.

Lemma applyState_lattice s obj :
  truthy obj = true → lattice (applyState s obj) = loadEdges obj.
Proof.
  intros Ht. unfold applyState. rewrite Ht. simpl.
  by rewrite lattice_loadViewport.
Qed.


Lemma loadEdge_loaded g e0 e1 e2 e3 rest :
  let ka := nodeKeyOf e0 e1 in
  let kb := nodeKeyOf e2 e3 in
  let g1 := loadEdge g (JArr (e0 :: e1 :: e2 :: e3 :: rest)) in
  let bump := if decide (ka = kb) then 2 else 1 in
  edges g1 = <[joinKeys ka kb := true]> (edges g)
  ∧ degreeOf g1 ka = degreeOf g ka + bump
  ∧ degreeOf g1 kb = degreeOf g kb + bump
  ∧ ∀ k, k ≠ ka → k ≠ kb → degree g1 !! k = degree g !! k.
Proof.
  intros ka kb g1 bump. subst g1 bump. cbn [loadEdge].
  fold ka kb. rewrite !degreeOf_default. simpl. rewrite !orElse_zero.
  split; [done|].
  destruct (decide (ka = kb)) as [E | E].
  - rewrite <- E. rewrite !lookup_insert_eq. simpl.
    repeat split; try lia. intros k Hk _. by rewrite !lookup_insert_ne.
  - rewrite (lookup_insert_ne _ ka kb) by done.
    rewrite lookup_insert_eq. simpl.
    rewrite lookup_insert_ne by done. rewrite lookup_insert_eq. simpl.
    repeat split; try lia. intros k Ha Hb. by rewrite !lookup_insert_ne.
Qed.



End BulkLoad.

(** ** Concrete runs on the reference platform *)

(** Bulk load performs no degree check: the three edges are all loaded and
    node (5,5) gets degree 3. *)
Example bulk_load_exceeds_cap :
  let g := lattice (@applyState Reference.platform startState threeAtOneNode) in
  size (edges g) = 3%nat ∧ degreeOf g (keyOf (Node 5 5)) = 3.
Proof. vm_compute. done. Qed.

(** C3, as stated, fails in a state reached by bulk load: node (5,5) has
    degree 3, [addEdge] to (5,4) is rejected, yet the edge is not present
    and neither endpoint has degree exactly 2. *)
Lemma rejected_without_degree_two :
  let g := lattice (@applyState Reference.platform startState threeAtOneNode) in
  let a := Node 5 5 in
  let b := Node 5 4 in
  ¬ ((addEdge g a b).1 = false ↔
       hasKey g (edgeKey a b) = true
       ∨ degreeOf g (keyOf a) = 2 ∨ degreeOf g (keyOf b) = 2).
Proof.
  intros g a b [Hfail _].
  assert (Hf : (addEdge g a b).1 = false) by (vm_compute; done).
  destruct (Hfail Hf) as [E | [E | E]]; vm_compute in E; discriminate E.
Qed.

Lemma addEdge_witness :
  let g := (addEdge emptyGraph (Node 5 5) (Node 6 5)).2 in
  (addEdge g (Node 5 5) (Node 5 6)).1 = true
  ∧ degreeOf (addEdge g (Node 5 5) (Node 5 6)).2 (keyOf (Node 5 5))
    = degreeOf g (keyOf (Node 5 5)) + 1
  ∧ ((addEdge g (Node 6 5) (Node 5 5)).1 = false
     ∧ (addEdge g (Node 6 5) (Node 5 5)).2 = g).
Proof.
  intros g.
  destruct (addEdge_rejects_iff_present_or_saturated g (Node 5 5) (Node 5 6))
    as (_ & _ & Hok & _).
  destruct (addEdge_rejects_iff_present_or_saturated g (Node 6 5) (Node 5 5))
    as (Hiff & Hsame & _ & _).
  assert (Ht : (addEdge g (Node 5 5) (Node 5 6)).1 = true) by (vm_compute; done).
  assert (Hf : (addEdge g (Node 6 5) (Node 5 5)).1 = false)
    by (apply Hiff; left; vm_compute; done).
  split; [exact Ht|]. split; [exact (proj1 (proj2 (Hok Ht)))|].
  split; [exact Hf|exact (Hsame Hf)].
Defined.





Lemma decode_failure_witness :
  @decodeStateFromString Reference.platform "!!" = JNull.
Proof.
  apply (proj1 (@decode_total_null_on_failure Reference.platform "!!")).
  reflexivity.
Defined.


(** ** The call site of [addEdge] and [removeEdge] *)

Lemma consider_distinct fullX fullY best a b :
  a ≠ b → distinctEnds best → distinctEnds (consider fullX fullY best a b).
Proof.
  intros Hab Hbest c. unfold consider.
  destruct best as [c0|].
  - destruct (Qltb _ (dist c0)); intros [= <-]; simpl; auto.
  - intros [= <-]. done.
Qed.

Lemma visit_distinct fullX fullY ix iy best d :
  distinctEnds best → distinctEnds (visit fullX fullY ix iy best d).
Proof.
  intros Hbest. unfold visit.
  repeat case_match; repeat apply consider_distinct; try done;
    intros [= E]; lia.
Qed.

(** The edge found by the nearest-edge search joins two different nodes. *)
Lemma findNearest_distinct fullX fullY c :
  findNearestEdgeToFull fullX fullY = Some c → enda c ≠ endb c.
Proof.
  unfold findNearestEdgeToFull.
  set (ix := round _). set (iy := round _).
  assert (Hgen : ∀ l best, distinctEnds best →
                   distinctEnds (fold_left (visit fullX fullY ix iy) l best)).
  { induction l as [|d l IH]; intros best Hb; [done|].
    simpl. apply IH. by apply visit_distinct. }
  apply Hgen. intros c0. done.
Qed.

(** A pointer release keeps the degree invariant: its tap calls [addEdge]
    or [removeEdge] on the two different nodes of the edge it found. *)
Lemma pointerup_invariant s ev :
  degreeInvariant (lattice s) → degreeInvariant (lattice (pointerup s ev)).
Proof.
  intros Hs. unfold pointerup.
  destruct (isPointerDown s); simpl; [|done].
  destruct (pointerStart s) as [o|]; simpl; [|done].
  case_match; simpl; [|done].
  unfold tap. simpl.
  destruct (findNearestEdgeToFull _ _) as [c|] eqn:E; [|done].
  apply findNearest_distinct in E.
  repeat case_match; simpl; try done.
  - by apply removeEdge_invariant.
  - by apply addEdge_invariant.
Qed.

(** A call with twice the same node is outside the theorem above: after
    [addEdge(a,a)], [addEdge(a,b)], [removeEdge(a,a)] the degree recorded
    for [a] is 0 while the edge to [b] is still there. *)
Remark same_node_twice :
  let a := Node 5 5 in
  let b := Node 6 5 in
  let g := run emptyGraph [OpAdd a a; OpAdd a b; OpRemove a a] in
  degreeOf g (keyOf a) = 0 ∧ incidentCount g (keyOf a) = 1%nat.
Proof. vm_compute. done. Qed.

(** The start state is what [initialize()] builds on a 900 x 600 container
    when no state was loaded. *)
Example startState_initialize :
  let s := @initialize Reference.platform 900 600 JNull in
  (zoom s == zoom startState)%Q
  ∧ (cx (view s) == cx (view startState))%Q
  ∧ (cy (view s) == cy (view startState))%Q
  ∧ (w (view s) == w (view startState))%Q
  ∧ (h (view s) == h (view startState))%Q
  ∧ lattice s = lattice startState.
Proof. vm_compute. repeat split; done. Qed.

(** Zoom keys from a zoom within [[0.6, 8]] stay within it, and recompute
    the extents from the canvas size. *)
Lemma keydown_zoom_range s key :
  (6 # 10 <= zoom s)%Q → (zoom s <= 8)%Q →
  (6 # 10 <= zoom (keydown s key))%Q ∧ (zoom (keydown s key) <= 8)%Q
  ∧ (zoomKey key = true →
     w (view (keydown s key)) = (width (canv s) / zoom (keydown s key))%Q
     ∧ h (view (keydown s key)) = (height (canv s) / zoom (keydown s key))%Q).
Proof.
  intros Hlo Hhi. unfold keydown, zoomKey.
  destruct (keyIs key "ArrowLeft"), (keyIs key "ArrowRight"),
    (keyIs key "ArrowUp"), (keyIs key "ArrowDown"),
    (keyIs key "+"), (keyIs key "="), (keyIs key "-"), (keyIs key "_");
    simpl;
    (split; [|split]); try done;
    name_minmax; unfold Qdiv in *;
    change (/ (12 # 10))%Q with (10 # 12)%Q in *; lra.
Qed.

(** A state load takes any positive zoom as it is: here 100. *)
Example load_takes_zoom_unclamped :
  (zoom (@applyState Reference.platform startState
           (JObj [("viewport", JObj [("zoom", JNum 100)])])) == 100)%Q.
Proof. vm_compute. reflexivity. Qed.

(* ===================================================================== *)
(** * Further properties of the script *)
(* ===================================================================== *)

(** ** Edge keys *)

Lemma joinKeys_cut ka kb :
  occurs "|" ka = false → occurs "|" kb = false →
  cutAt "|" (joinKeys ka kb) = (ka, kb) ∨ cutAt "|" (joinKeys ka kb) = (kb, ka).
Proof.
  intros Ha Hb. unfold joinKeys.
  destruct (String.ltb ka kb); rewrite cutAt_join by done; auto.
Qed.

(** X1. Two edge keys are equal exactly when they join the same two nodes,
    in either order: different edges never share a key, and the two
    orientations of an edge always do. *)
Theorem edgeKey_eq_iff_same_ends (a b c d : node) :
  edgeKey a b = edgeKey c d ↔ (a = c ∧ b = d) ∨ (a = d ∧ b = c).
Proof.
  split.
  - intros E. unfold edgeKey in E.
    assert (Hcut : cutAt "|" (joinKeys (keyOf a) (keyOf b))
                   = cutAt "|" (joinKeys (keyOf c) (keyOf d))) by (by rewrite E).
    destruct (joinKeys_cut (keyOf a) (keyOf b)) as [H1 | H1];
      try apply occurs_bar_nodeKey;
      destruct (joinKeys_cut (keyOf c) (keyOf d)) as [H2 | H2];
      try apply occurs_bar_nodeKey;
      rewrite H1, H2 in Hcut; injection Hcut as Hx Hy;
      apply keyOf_inj in Hx, Hy; subst; auto.
  - intros [[-> ->] | [-> ->]]; [done | apply edgeKey_comm].
Qed.

(** X2. The order of the two endpoints does not matter to [addEdge] and
    [removeEdge]: the returned flag and the resulting graph are the same. *)
Theorem addEdge_removeEdge_symmetric (g : graph) (a b : node) :
  addEdge g a b = addEdge g b a ∧ removeEdge g a b = removeEdge g b a.
Proof.
  destruct (decide (a = b)) as [-> | Hab]; [done|].
  assert (Hk : keyOf a ≠ keyOf b) by (by apply keyOf_ne).
  unfold addEdge, removeEdge. rewrite (edgeKey_comm b a).
  split.
  - destruct (hasKey g (edgeKey a b)); [done|].
    rewrite (orb_comm (2 <=? orElse (degree g !! keyOf b) 0)).
    destruct (_ || _); [done|].
    by rewrite (insert_insert_ne _ (keyOf b) (keyOf a)) by done.
  - destruct (hasKey g (edgeKey a b)); simpl; [|done].
    rewrite !lookup_insert_ne by congruence.
    by rewrite (insert_insert_ne _ (keyOf b) (keyOf a)) by done.
Qed.

(** ** [removeEdge] *)

Lemma orElse_one_floor v :
  0 ≤ default 0 v → orElse v 1 - 1 = Z.max 0 (default 0 v - 1).
Proof.
  destruct v as [n|]; simpl; [|lia]. destruct (Z.eqb_spec n 0); lia.
Qed.

(** X3. [removeEdge(a,b)] returns [false] exactly when the edge is absent,
    and then changes nothing. Otherwise the key leaves the edge set, and for
    two different endpoints whose recorded degrees are not negative each
    degree goes down by one but never below 0; no other degree entry
    changes. Removing the same edge again is rejected. *)
Theorem removeEdge_rejects_iff_absent (g : graph) (a b : node) :
  ((removeEdge g a b).1 = false ↔ hasKey g (edgeKey a b) = false)
  ∧ ((removeEdge g a b).1 = false → (removeEdge g a b).2 = g)
  ∧ ((removeEdge g a b).1 = true →
       edges (removeEdge g a b).2 = delete (edgeKey a b) (edges g)
       ∧ (a ≠ b → 0 ≤ degreeOf g (keyOf a) → 0 ≤ degreeOf g (keyOf b) →
          degreeOf (removeEdge g a b).2 (keyOf a)
          = Z.max 0 (degreeOf g (keyOf a) - 1)
          ∧ degreeOf (removeEdge g a b).2 (keyOf b)
            = Z.max 0 (degreeOf g (keyOf b) - 1))
       ∧ (∀ k, k ≠ keyOf a → k ≠ keyOf b →
            degree (removeEdge g a b).2 !! k = degree g !! k))
  ∧ (removeEdge (removeEdge g a b).2 a b).1 = false.
Proof.
  unfold removeEdge.
  destruct (hasKey g (edgeKey a b)) eqn:Hk; simpl.
  - split; [done|]. split; [done|]. split.
    + intros _. split; [done|]. split.
      * intros Hab Ha Hb. rewrite !degreeOf_default in *. simpl.
        assert (Hne : keyOf a ≠ keyOf b) by (by apply keyOf_ne).
        rewrite (lookup_insert_ne _ (keyOf a) (keyOf b)) by done.
        split.
        -- rewrite (lookup_insert_ne _ (keyOf b) (keyOf a)) by congruence.
           rewrite lookup_insert_eq. simpl. by apply orElse_one_floor.
        -- rewrite lookup_insert_eq. simpl. by apply orElse_one_floor.
      * intros k Ha Hb. by rewrite !lookup_insert_ne.
    + unfold hasKey. simpl. rewrite lookup_delete_eq.
      by rewrite bool_decide_eq_false_2 by (by intros [? ?]).
  - rewrite Hk. simpl. done.
Qed.

Lemma removeEdge_witness :
  let g := (addEdge emptyGraph (Node 5 5) (Node 6 5)).2 in
  degreeOf (removeEdge g (Node 6 5) (Node 5 5)).2 (keyOf (Node 6 5))
  = Z.max 0 (degreeOf g (keyOf (Node 6 5)) - 1)
  ∧ degreeOf (removeEdge g (Node 6 5) (Node 5 5)).2 (keyOf (Node 5 5))
    = Z.max 0 (degreeOf g (keyOf (Node 5 5)) - 1).
Proof.
  intros g.
  destruct (removeEdge_rejects_iff_absent g (Node 6 5) (Node 5 5))
    as (_ & _ & Hok & _).
  destruct Hok as (_ & Hdeg & _); [by vm_compute|].
  apply Hdeg; [discriminate | by vm_compute | by vm_compute].
Defined.

(** X4. Adding an edge and removing it again brings back the edge set and
    every degree: for two different
    nodes with non-negative recorded degrees, after a successful
    [addEdge(a,b)] the call [removeEdge(a,b)] succeeds, the edge set is the
    one before, and [degree.get(k) || 0] is what it was for every key. *)
Theorem addEdge_then_removeEdge_restores (g : graph) (a b : node) :
  a ≠ b →
  0 ≤ degreeOf g (keyOf a) → 0 ≤ degreeOf g (keyOf b) →
  (addEdge g a b).1 = true →
  (removeEdge (addEdge g a b).2 a b).1 = true
  ∧ edges (removeEdge (addEdge g a b).2 a b).2 = edges g
  ∧ ∀ k, degreeOf (removeEdge (addEdge g a b).2 a b).2 k = degreeOf g k.
Proof.
  intros Hab Ha Hb Hadd.
  assert (Hk : keyOf a ≠ keyOf b) by (by apply keyOf_ne).
  assert (Hfree : blocked g a b = false).
  { destruct (blocked g a b) eqn:E; [|done].
    by rewrite (addEdge_blocked g a b E) in Hadd. }
  rewrite (addEdge_free g a b Hfree).
  assert (Hnone : edges g !! edgeKey a b = None).
  { apply hasKey_false. unfold blocked in Hfree.
    by destruct (hasKey g (edgeKey a b)). }
  unfold removeEdge, hasKey. simpl.
  rewrite lookup_insert_eq. rewrite bool_decide_eq_true_2 by eauto. simpl.
  split; [done|]. split; [by apply delete_insert_id|].
  intros k. rewrite !degreeOf_default in *. simpl.
  rewrite !(lookup_insert_ne _ (keyOf b) (keyOf a)) by congruence.
  rewrite !lookup_insert_eq.
  rewrite (lookup_insert_ne _ (keyOf a) (keyOf b)) by done.
  rewrite lookup_insert_eq.
  rewrite !orElse_one by (simpl; lia). simpl.
  destruct (decide (k = keyOf b)) as [-> | Hkb].
  { rewrite lookup_insert_eq. simpl. lia. }
  rewrite lookup_insert_ne by done.
  destruct (decide (k = keyOf a)) as [-> | Hka].
  { rewrite lookup_insert_eq. simpl. lia. }
  by rewrite !lookup_insert_ne by done.
Qed.

Lemma add_remove_witness :
  let g := (addEdge emptyGraph (Node 5 5) (Node 6 5)).2 in
  edges (removeEdge (addEdge g (Node 5 5) (Node 5 6)).2 (Node 5 5) (Node 5 6)).2
  = edges g
  ∧ degreeOf (removeEdge (addEdge g (Node 5 5) (Node 5 6)).2
                (Node 5 5) (Node 5 6)).2 (keyOf (Node 5 5))
    = degreeOf g (keyOf (Node 5 5)).
Proof.
  intros g.
  destruct (addEdge_then_removeEdge_restores g (Node 5 5) (Node 5 6))
    as (_ & He & Hd); [discriminate | by vm_compute | by vm_compute
                       | by vm_compute |].
  split; [exact He | apply Hd].
Defined.

(** ** Nearest-edge search *)

Lemma window_spec (d : Z * Z) :
  d ∈ window ↔ (-2 ≤ d.1 ≤ 2 ∧ -2 ≤ d.2 ≤ 2).
Proof.
  destruct d as [dx dy]. simpl. split.
  - intros Hd. apply list_elem_of_In in Hd. vm_compute in Hd.
    repeat destruct Hd as [Hd | Hd]; try (injection Hd as <- <-; lia). done.
  - intros [Hx Hy]. apply list_elem_of_In.
    assert (dx = -2 ∨ dx = -1 ∨ dx = 0 ∨ dx = 1 ∨ dx = 2) as Hdx by lia.
    assert (dy = -2 ∨ dy = -1 ∨ dy = 0 ∨ dy = 1 ∨ dy = 2) as Hdy by lia.
    destruct Hdx as [-> | [-> | [-> | [-> | ->]]]];
      destruct Hdy as [-> | [-> | [-> | [-> | ->]]]];
      vm_compute; tauto.
Qed.

Lemma Qltb_true a b : Qltb a b = true → (a < b)%Q.
Proof.
  unfold Qltb. intros H. apply negb_true_iff in H.
  apply Qnot_le_lt. intros Hle. apply Qle_bool_iff in Hle. congruence.
Qed.

Lemma Qltb_false a b : Qltb a b = false → (b <= a)%Q.
Proof.
  unfold Qltb. intros H. apply negb_false_iff in H. by apply Qle_bool_iff.
Qed.

(** What one [consider] step gives: a candidate that is the offered edge or
    the previous best, not farther than either. *)
Lemma consider_step fullX fullY best a b :
  ∃ c, consider fullX fullY best a b = Some c
       ∧ (dist c <= midpointDistance fullX fullY a b)%Q
       ∧ (∀ c0, best = Some c0 → (dist c <= dist c0)%Q)
       ∧ (Some c = best
          ∨ c = Candidate (midpointDistance fullX fullY a b) a b).
Proof.
  unfold consider. fold (midpointDistance fullX fullY a b).
  destruct best as [c0|].
  - destruct (Qltb _ (dist c0)) eqn:E.
    + eexists. split; [done|]. simpl. split; [apply Qle_refl|].
      split; [|by right].
      intros c1 [= <-]. apply Qlt_le_weak. by apply Qltb_true.
    + exists c0. split; [done|]. split; [by apply Qltb_false|].
      split; [|by left]. intros c1 [= <-]. apply Qle_refl.
  - eexists. split; [done|]. simpl. split; [apply Qle_refl|].
    split; [done | by right].
Qed.

Lemma horizontal_guard nx ny :
  (0 <=? nx) && (nx + 1 <? COLS) && (0 <=? ny) && (ny <? ROWS) = true
  ↔ inLattice (Node nx ny) ∧ inLattice (Node (nx + 1) ny).
Proof.
  unfold inLattice. simpl.
  rewrite !andb_true_iff, !Z.leb_le, !Z.ltb_lt. lia.
Qed.

Lemma vertical_guard nx ny :
  (0 <=? nx) && (nx <? COLS) && (0 <=? ny) && (ny + 1 <? ROWS) = true
  ↔ inLattice (Node nx ny) ∧ inLattice (Node nx (ny + 1)).
Proof.
  unfold inLattice. simpl.
  rewrite !andb_true_iff, !Z.leb_le, !Z.ltb_lt. lia.
Qed.

(** The facts one round of the loops establishes, for an offset of the
    window. *)
Lemma visit_step fullX fullY best d :
  d ∈ window →
  (∀ c0, best = Some c0 → soundCandidate fullX fullY c0) →
  let cell := nearestCell fullX fullY in
  let a := Node (cell.1 + d.1) (cell.2 + d.2) in
  let r := visit fullX fullY cell.1 cell.2 best d in
  (∀ c, r = Some c → soundCandidate fullX fullY c)
  ∧ (∀ c0, best = Some c0 → ∃ c, r = Some c ∧ (dist c <= dist c0)%Q)
  ∧ (∀ b, inLattice a → inLattice b → unitEdge a b →
       ∃ c, r = Some c ∧ (dist c <= midpointDistance fullX fullY a b)%Q).
Proof.
  intros Hd Hbest. apply window_spec in Hd.
  unfold soundCandidate in *. revert Hbest.
  generalize (nearestCell fullX fullY). intros [ix iy] Hbest.
  destruct d as [dx dy]. cbv zeta. cbn [fst snd] in *.
  unfold visit. cbn [fst snd].
  set (nx := ix + dx) in *. set (ny := iy + dy) in *.
  set (a := Node nx ny) in *.
  assert (Hsound : ∀ b, inLattice a → inLattice b → unitEdge a b →
            candidateEdge (ix, iy) a b
            ∧ midpointDistance fullX fullY a b
              = midpointDistance fullX fullY a b).
  { intros b Ha Hb Hu. split; [|done].
    unfold candidateEdge. split; [done|]. split; [done|]. split; [done|].
    subst a nx ny. cbn [px py fst snd]. lia. }
  destruct ((0 <=? nx) && (nx + 1 <? COLS) && (0 <=? ny) && (ny <? ROWS))
    eqn:Hh;
    destruct ((0 <=? nx) && (nx <? COLS) && (0 <=? ny) && (ny + 1 <? ROWS))
      eqn:Hv.
  - apply horizontal_guard in Hh as [Ha Hb1].
    apply vertical_guard in Hv as [_ Hb2].
    destruct (consider_step fullX fullY best a (Node (nx + 1) ny))
      as (c1 & E1 & Hc1 & Hm1 & Ho1).
    fold a. rewrite E1.
    destruct (consider_step fullX fullY (Some c1) a (Node nx (ny + 1)))
      as (c2 & E2 & Hc2 & Hm2 & Ho2).
    rewrite E2.
    assert (H12 : (dist c2 <= dist c1)%Q) by (by apply Hm2).
    assert (Hs1 : candidateEdge (ix, iy) (enda c1) (endb c1)
                  ∧ dist c1
                    = midpointDistance fullX fullY (enda c1) (endb c1)).
    { destruct Ho1 as [<- | ->]; [by apply Hbest|].
      apply Hsound; [done..|]. left. done. }
    split; [|split].
    + intros c [= <-]. destruct Ho2 as [[= ->] | ->]; [done|].
      apply Hsound; [done..|]. right. done.
    + intros c0 E0. exists c2. split; [done|].
      eapply Qle_trans; [exact H12 | by apply Hm1].
    + intros b _ Hb Hu. exists c2. split; [done|].
      destruct Hu as [[Hx Hy] | [Hx Hy]]; simpl in Hx, Hy.
      * assert (b = Node (nx + 1) ny) as ->
          by (destruct b; simpl in *; congruence).
        eapply Qle_trans; [exact H12 | exact Hc1].
      * assert (b = Node nx (ny + 1)) as ->
          by (destruct b; simpl in *; congruence).
        exact Hc2.
  - apply horizontal_guard in Hh as [Ha Hb1].
    destruct (consider_step fullX fullY best a (Node (nx + 1) ny))
      as (c1 & E1 & Hc1 & Hm1 & Ho1).
    fold a. rewrite E1.
    split; [|split].
    + intros c [= <-]. destruct Ho1 as [<- | ->]; [by apply Hbest|].
      apply Hsound; [done..|]. left. done.
    + intros c0 E0. exists c1. split; [done | by apply Hm1].
    + intros b _ Hb Hu. exists c1. split; [done|].
      destruct Hu as [[Hx Hy] | [Hx Hy]]; simpl in Hx, Hy.
      * assert (b = Node (nx + 1) ny) as ->
          by (destruct b; simpl in *; congruence).
        exact Hc1.
      * assert (b = Node nx (ny + 1)) as Eb
          by (destruct b; simpl in *; congruence).
        exfalso. subst b.
        assert (Hv2 : (0 <=? nx) && (nx <? COLS) && (0 <=? ny)
                      && (ny + 1 <? ROWS) = true)
          by (by apply vertical_guard).
        congruence.
  - apply vertical_guard in Hv as [Ha Hb2].
    destruct (consider_step fullX fullY best a (Node nx (ny + 1)))
      as (c2 & E2 & Hc2 & Hm2 & Ho2).
    fold a. rewrite E2.
    split; [|split].
    + intros c [= <-]. destruct Ho2 as [<- | ->]; [by apply Hbest|].
      apply Hsound; [done..|]. right. done.
    + intros c0 E0. exists c2. split; [done | by apply Hm2].
    + intros b _ Hb Hu. exists c2. split; [done|].
      destruct Hu as [[Hx Hy] | [Hx Hy]]; simpl in Hx, Hy.
      * assert (b = Node (nx + 1) ny) as Eb
          by (destruct b; simpl in *; congruence).
        exfalso. subst b.
        assert (Hh2 : (0 <=? nx) && (nx + 1 <? COLS) && (0 <=? ny)
                      && (ny <? ROWS) = true)
          by (by apply horizontal_guard).
        congruence.
      * assert (b = Node nx (ny + 1)) as ->
          by (destruct b; simpl in *; congruence).
        exact Hc2.
  - split; [done|]. split.
    + intros c0 ->. exists c0. split; [done | apply Qle_refl].
    + intros b Ha Hb Hu. exfalso.
      destruct Hu as [[Hx Hy] | [Hx Hy]]; simpl in Hx, Hy.
      * assert (b = Node (nx + 1) ny) as Eb
          by (destruct b; simpl in *; congruence).
        subst b.
        assert (Hh2 : (0 <=? nx) && (nx + 1 <? COLS) && (0 <=? ny)
                      && (ny <? ROWS) = true)
          by (by apply horizontal_guard).
        congruence.
      * assert (b = Node nx (ny + 1)) as Eb
          by (destruct b; simpl in *; congruence).
        subst b.
        assert (Hv2 : (0 <=? nx) && (nx <? COLS) && (0 <=? ny)
                      && (ny + 1 <? ROWS) = true)
          by (by apply vertical_guard).
        congruence.
Qed.

Lemma search_fold fullX fullY l best :
  (∀ d, d ∈ l → d ∈ window) →
  (∀ c0, best = Some c0 → soundCandidate fullX fullY c0) →
  let cell := nearestCell fullX fullY in
  let r := fold_left (visit fullX fullY cell.1 cell.2) l best in
  (∀ c, r = Some c → soundCandidate fullX fullY c)
  ∧ (∀ c0, best = Some c0 → ∃ c, r = Some c ∧ (dist c <= dist c0)%Q)
  ∧ (∀ d b, d ∈ l →
       inLattice (Node (cell.1 + d.1) (cell.2 + d.2)) → inLattice b →
       unitEdge (Node (cell.1 + d.1) (cell.2 + d.2)) b →
       ∃ c, r = Some c
            ∧ (dist c <= midpointDistance fullX fullY
                           (Node (cell.1 + d.1) (cell.2 + d.2)) b)%Q).
Proof.
  intros Hl Hbest cell. revert best Hbest.
  induction l as [|d0 l IH]; intros best Hbest r.
  - subst r. simpl. split; [done|]. split.
    + intros c0 ->. exists c0. split; [done | apply Qle_refl].
    + intros d b Hd. by apply elem_of_nil in Hd.
  - subst r. cbn [fold_left].
    destruct (visit_step fullX fullY best d0) as (Hs & Hm & Hc);
      [apply Hl; by left | done |].
    fold cell in Hs, Hm, Hc.
    assert (Hl2 : ∀ d, d ∈ l → d ∈ window)
      by (intros d Hd; apply Hl; by right).
    destruct (IH Hl2 (visit fullX fullY cell.1 cell.2 best d0) Hs)
      as (Hs2 & Hm2 & Hc2).
    split; [done|]. split.
    + intros c0 E0. destruct (Hm c0 E0) as (c1 & E1 & H1).
      destruct (Hm2 c1 E1) as (c2 & E2 & H2).
      exists c2. split; [done|]. eapply Qle_trans; eauto.
    + intros d b Hd Ha Hb Hu. apply elem_of_cons in Hd as [-> | Hd].
      * destruct (Hc b Ha Hb Hu) as (c1 & E1 & H1).
        destruct (Hm2 c1 E1) as (c2 & E2 & H2).
        exists c2. split; [done|]. eapply Qle_trans; eauto.
      * by apply Hc2.
Qed.

Lemma findNearest_fold fullX fullY :
  findNearestEdgeToFull fullX fullY
  = fold_left (visit fullX fullY (nearestCell fullX fullY).1
                 (nearestCell fullX fullY).2) window None.
Proof. reflexivity. Qed.

(** X5. The edge returned by [findNearestEdgeToFull] is a lattice edge:
    both ends are nodes of the lattice, the second end is the right or the
    lower neighbour of the first, the first end is at most two cells away
    from the cell nearest to the query point, and the recorded distance is
    the squared distance from the query point to the edge's midpoint. *)
Theorem findNearest_returns_lattice_edge (fullX fullY : Q) (c : candidate) :
  findNearestEdgeToFull fullX fullY = Some c →
  inLattice (enda c) ∧ inLattice (endb c) ∧ unitEdge (enda c) (endb c)
  ∧ -2 ≤ px (enda c) - (nearestCell fullX fullY).1 ≤ 2
  ∧ -2 ≤ py (enda c) - (nearestCell fullX fullY).2 ≤ 2
  ∧ dist c = midpointDistance fullX fullY (enda c) (endb c).
Proof.
  rewrite findNearest_fold. intros E.
  destruct (search_fold fullX fullY window None) as (Hs & _); [done..|].
  destruct (Hs c E) as ((Ha & Hb & Hu & Hx & Hy) & Hd). done.
Qed.

(** X6. No edge the search looks at is closer than the one it returns: for
    every lattice edge that starts at most two cells away from the cell
    nearest to the query point, the returned distance is at most the
    squared distance from the query point to that edge's midpoint. *)
Theorem findNearest_is_nearest (fullX fullY : Q) (c : candidate) (a b : node) :
  findNearestEdgeToFull fullX fullY = Some c →
  candidateEdge (nearestCell fullX fullY) a b →
  (dist c <= midpointDistance fullX fullY a b)%Q.
Proof.
  rewrite findNearest_fold. intros E (Ha & Hb & Hu & Hx & Hy).
  destruct (search_fold fullX fullY window None) as (_ & _ & Hc); [done..|].
  set (cell := nearestCell fullX fullY) in *.
  assert (Ea : a = Node (cell.1 + (px a - cell.1)) (cell.2 + (py a - cell.2))).
  { destruct a as [ax ay]. simpl. f_equal; lia. }
  assert (Hw : (px a - cell.1, py a - cell.2) ∈ window)
    by (by apply window_spec).
  specialize (Hc (px a - cell.1, py a - cell.2) b Hw).
  cbn [fst snd] in Hc. rewrite <- Ea in Hc.
  destruct (Hc Ha Hb Hu) as (c1 & E1 & H1).
  rewrite E in E1. by injection E1 as <-.
Qed.

(** X7. The search finds an edge whenever the cell nearest to the query
    point is a node of the lattice. *)
Theorem findNearest_finds_edge (fullX fullY : Q) :
  inLattice (Node (nearestCell fullX fullY).1 (nearestCell fullX fullY).2) →
  is_Some (findNearestEdgeToFull fullX fullY).
Proof.
  rewrite findNearest_fold. intros [Hx Hy].
  destruct (search_fold fullX fullY window None) as (_ & _ & Hc); [done..|].
  set (cell := nearestCell fullX fullY) in *. clearbody cell.
  destruct cell as [ix iy]. cbn [px py fst snd] in *.
  unfold inLattice in Hc. cbn [px py] in Hc.
  destruct (decide (ix + 1 < COLS)) as [Hr | Hr].
  - assert (Hw : (0, 0) ∈ window) by (by apply window_spec).
    destruct (Hc (0, 0) (Node (ix + 0 + 1) (iy + 0)) Hw)
      as (c & E & _); cbn [fst snd px py]; try lia.
    + left. cbn [px py]. done.
    + rewrite E. eauto.
  - assert (Hw : (-1, 0) ∈ window) by (by apply window_spec).
    destruct (Hc (-1, 0) (Node (ix + -1 + 1) (iy + 0)) Hw)
      as (c & E & _); cbn [fst snd px py]; try (unfold COLS in *; lia).
    + left. cbn [px py]. done.
    + rewrite E. eauto.
Qed.

Lemma findNearest_lattice_edge_witness :
  let c := Candidate (0 # 64) (Node 0 0) (Node 1 0) in
  findNearestEdgeToFull (45 # 2) 18 = Some c
  ∧ inLattice (enda c) ∧ inLattice (endb c) ∧ unitEdge (enda c) (endb c).
Proof.
  intros c.
  assert (E : findNearestEdgeToFull (45 # 2) 18 = Some c) by (by vm_compute).
  split; [exact E|].
  destruct (findNearest_returns_lattice_edge (45 # 2) 18 c E)
    as (Ha & Hb & Hu & _).
  exact (conj Ha (conj Hb Hu)).
Defined.

Lemma findNearest_nearest_witness :
  let c := Candidate (0 # 64) (Node 0 0) (Node 1 0) in
  (dist c <= midpointDistance (45 # 2) 18 (Node 1 0) (Node 1 1))%Q.
Proof.
  intros c.
  apply (findNearest_is_nearest (45 # 2) 18 c (Node 1 0) (Node 1 1)).
  - by vm_compute.
  - vm_compute. repeat split; try discriminate. right. done.
Defined.

Lemma findNearest_finds_witness :
  is_Some (findNearestEdgeToFull (45 # 2) 18).
Proof.
  apply (findNearest_finds_edge (45 # 2) 18).
  vm_compute. repeat split; discriminate.
Defined.

(** ** Gestures: tap or drag *)

Lemma gesture_snoc s down moves ev :
  gesture s down (moves ++ [ev]) = pointermove (gesture s down moves) ev.
Proof. unfold gesture. by rewrite fold_left_app. Qed.

(** What stays fixed during a gesture, and when it counts as a drag. *)
Lemma gesture_shape s down moves :
  let s1 := gesture s down moves in
  isPointerDown s1 = true
  ∧ pointerStart s1
    = Some (Origin (clientX down) (clientY down) (cx (view s)) (cy (view s)))
  ∧ zoom s1 = zoom s ∧ canv s1 = canv s ∧ lattice s1 = lattice s
  ∧ w (view s1) = w (view s) ∧ h (view s1) = h (view s)
  ∧ (isDragging s1 = true ↔ ∃ m, m ∈ moves ∧ beyondThreshold down m = true)
  ∧ (isDragging s1 = false → view s1 = view s).
Proof.
  induction moves as [|ev moves IH] using rev_ind.
  - cbv zeta. unfold gesture. cbn.
    split; [done|]. split; [done|]. split; [done|]. split; [done|].
    split; [done|]. split; [done|]. split; [done|]. split; [|done].
    split; [done|]. intros [m [Hm _]]. by apply elem_of_nil in Hm.
  - rewrite gesture_snoc. cbv zeta in *.
    destruct IH as (Hd & Ho & Hz & Hc & Hl & Hw & Hh & Hdr & Hv).
    set (s1 := gesture s down moves) in *. clearbody s1.
    assert (Hstep : ∀ m, m ∈ moves ++ [ev] ↔ m ∈ moves ∨ m = ev).
    { intros m. rewrite elem_of_app, list_elem_of_singleton. done. }
    unfold pointermove. rewrite Hd, Ho. cbn [ox oy ocx ocy].
    fold (beyondThreshold down ev).
    destruct (isDragging s1) eqn:Edr; cbn [negb andb].
    + cbn. rewrite Hz, Hc, Hl, Hw, Hh.
      split; [done|]. split; [done|]. split; [done|]. split; [done|].
      split; [done|]. split; [done|]. split; [done|]. split; [|done].
      split; [|done]. intros _.
      destruct (proj1 Hdr eq_refl) as (m & Hm & Hb).
      exists m. split; [|done]. apply Hstep. by left.
    + destruct (beyondThreshold down ev) eqn:Eb; cbn.
      * rewrite Hz, Hc, Hl, Hw, Hh.
        split; [done|]. split; [done|]. split; [done|]. split; [done|].
        split; [done|]. split; [done|]. split; [done|]. split; [|done].
        split; [|done]. intros _. exists ev. split; [|done].
        apply Hstep. by right.
      * rewrite Hz, Hc, Hl, Hw, Hh.
        split; [done|]. split; [done|]. split; [done|]. split; [done|].
        split; [done|]. split; [done|]. split; [done|]. split.
        -- split; [done|]. intros (m & Hm & Hb).
           apply Hstep in Hm as [Hm | ->]; [|congruence].
           apply Hdr. eauto.
        -- intros _. by apply Hv.
Qed.

(** X8. A gesture that went beyond the drag threshold, at one of its moves
    or at its release, never toggles an edge: after [pointerup] the edge
    set and the degree map are those before [pointerdown], and the pointer
    state is idle again. *)
Theorem drag_never_toggles
  (s : state) (down up : pointerEvent) (moves : list pointerEvent) :
  (∃ m, m ∈ moves ∧ beyondThreshold down m = true)
  ∨ beyondThreshold down up = true →
  let s2 := pointerup (gesture s down moves) up in
  lattice s2 = lattice s
  ∧ isPointerDown s2 = false ∧ pointerStart s2 = None ∧ isDragging s2 = false.
Proof.
  intros Hdrag.
  destruct (gesture_shape s down moves)
    as (Hd & Ho & _ & _ & Hl & _ & _ & Hdr & _).
  set (s1 := gesture s down moves) in *. clearbody s1.
  cbv zeta. unfold pointerup. rewrite Hd. cbn [negb].
  cbn [pointerStart setPointer]. rewrite Ho. cbn [ox oy isDragging].
  fold (beyondThreshold down up).
  destruct (isDragging s1) eqn:Edr; cbn [negb andb]; [by cbn|].
  destruct (beyondThreshold down up) eqn:Eup; cbn [negb]; [by cbn|].
  exfalso. destruct Hdrag as [Hm | Hm]; [|done].
  apply Hdr in Hm. congruence.
Qed.

Lemma drag_never_toggles_witness :
  let down := PointerEvent 100 100 0 0 in
  let move := PointerEvent 140 100 0 0 in
  let up := PointerEvent 100 100 0 0 in
  lattice (pointerup (gesture oneEdgeState down [move]) up)
  = lattice oneEdgeState.
Proof.
  intros down move up.
  apply (drag_never_toggles oneEdgeState down up [move]).
  left. exists move. split; [by left | by vm_compute].
Defined.

(** X9. A gesture whose moves all stay within the drag threshold leaves
    the viewport where it was: after [pointerup], [zoom], [cx], [cy], [w]
    and [h] are those before [pointerdown]. *)
Theorem tap_gesture_keeps_viewport
  (s : state) (down up : pointerEvent) (moves : list pointerEvent) :
  (∀ m, m ∈ moves → beyondThreshold down m = false) →
  zoom (pointerup (gesture s down moves) up) = zoom s
  ∧ view (pointerup (gesture s down moves) up) = view s.
Proof.
  intros Hin.
  destruct (gesture_shape s down moves)
    as (_ & _ & Hz & _ & _ & _ & _ & Hdr & Hv).
  destruct (pointerup_viewport (gesture s down moves) up) as (-> & -> & _).
  split; [done|]. apply Hv.
  destruct (isDragging (gesture s down moves)) eqn:E; [|done].
  destruct (proj1 Hdr eq_refl) as (m & Hm & Hb).
  rewrite (Hin m Hm) in Hb. done.
Qed.

Lemma tap_gesture_witness :
  let down := PointerEvent 100 100 0 0 in
  let move := PointerEvent 103 102 0 0 in
  view (pointerup (gesture startState down [move]) move) = view startState.
Proof.
  intros down move.
  apply (tap_gesture_keeps_viewport startState down move [move]).
  intros m Hm. apply list_elem_of_singleton in Hm. subst m. by vm_compute.
Defined.

(** X10. While dragging, the viewport depends only on where the gesture
    started and on the latest pointer position: after a move that leaves
    the gesture in the dragging state, each axis of the centre is the
    clamp of the centre at [pointerdown] minus the pointer displacement
    scaled by [w / canvas.width] (resp. [h / canvas.height]), whatever the
    moves in between; [w] and [h] are unchanged. *)
Theorem drag_follows_displacement
  (s : state) (down ev : pointerEvent) (moves : list pointerEvent) :
  (∃ m, m ∈ moves ++ [ev] ∧ beyondThreshold down m = true) →
  view (gesture s down (moves ++ [ev]))
  = Viewport
      (clampAxis (w (view s)) fullWidth
         (cx (view s)
          + - (clientX ev - clientX down) * (w (view s) / width (canv s))))
      (clampAxis (h (view s)) fullHeight
         (cy (view s)
          + - (clientY ev - clientY down) * (h (view s) / height (canv s))))
      (w (view s)) (h (view s)).
Proof.
  intros Hdrag.
  destruct (gesture_shape s down (moves ++ [ev]))
    as (_ & _ & _ & _ & _ & _ & _ & Hdr & _).
  apply Hdr in Hdrag. clear Hdr.
  destruct (gesture_shape s down moves)
    as (Hd & Ho & _ & Hc & _ & Hw & Hh & _ & _).
  rewrite gesture_snoc in *.
  set (s1 := gesture s down moves) in *. clearbody s1.
  unfold pointermove in *. rewrite Hd, Ho in *. cbn [ox oy ocx ocy] in *.
  destruct (if negb (isDragging s1) && _ then true else isDragging s1);
    [|by cbn in Hdrag; congruence].
  cbn. by rewrite Hc, Hw, Hh.
Qed.

Lemma drag_follows_witness :
  let down := PointerEvent 100 100 0 0 in
  let far := PointerEvent 400 300 0 0 in
  let near := PointerEvent 101 100 0 0 in
  (cx (view (gesture startState down ([far] ++ [near]))) == 1125 # 8)%Q.
Proof.
  intros down far near.
  rewrite (drag_follows_displacement startState down near [far]).
  - by vm_compute.
  - exists far. split; [by left | by vm_compute].
Defined.

(** ** Sessions of input events *)

Lemma findNearest_sound fullX fullY c :
  findNearestEdgeToFull fullX fullY = Some c → soundCandidate fullX fullY c.
Proof.
  rewrite findNearest_fold. intros E.
  destruct (search_fold fullX fullY window None) as (Hs & _); [done..|].
  by apply Hs.
Qed.

Lemma latticeEdges_empty : latticeEdges emptyGraph.
Proof.
  intros k [v Hk]. unfold emptyGraph in Hk. cbn [edges] in Hk.
  by rewrite lookup_empty in Hk.
Qed.

Lemma addEdge_latticeEdges g a b :
  inLattice a → inLattice b → unitEdge a b →
  latticeEdges g → latticeEdges (addEdge g a b).2.
Proof.
  intros Ha Hb Hu Hg.
  destruct (blocked g a b) eqn:E.
  - by rewrite (addEdge_blocked g a b E).
  - rewrite (addEdge_free g a b E). cbn [snd].
    intros k Hk. cbn [edges] in Hk.
    destruct (decide (k = edgeKey a b)) as [-> | Hne].
    + by exists a, b.
    + rewrite lookup_insert_ne in Hk by done. by apply Hg.
Qed.

Lemma removeEdge_latticeEdges g a b :
  latticeEdges g → latticeEdges (removeEdge g a b).2.
Proof.
  intros Hg. unfold removeEdge.
  destruct (negb (hasKey g (edgeKey a b))); [done|]. cbn [snd].
  intros k Hk. cbn [edges] in Hk.
  apply lookup_delete_is_Some in Hk as [_ Hk]. by apply Hg.
Qed.

Lemma pointerup_latticeEdges s ev :
  latticeEdges (lattice s) → latticeEdges (lattice (pointerup s ev)).
Proof.
  intros Hs. unfold pointerup.
  destruct (isPointerDown s); simpl; [|done].
  destruct (pointerStart s) as [o|]; simpl; [|done].
  case_match; simpl; [|done].
  unfold tap. simpl.
  destruct (findNearestEdgeToFull _ _) as [c|] eqn:E; [|done].
  apply findNearest_sound in E as [(Ha & Hb & Hu & _) _].
  repeat case_match; simpl; try done.
  - by apply removeEdge_latticeEdges.
  - by apply addEdge_latticeEdges.
Qed.

Lemma lattice_resize s cw ch : lattice (resize s cw ch) = lattice s.
Proof. done. Qed.

Lemma lattice_pointerdown s ev : lattice (pointerdown s ev) = lattice s.
Proof. done. Qed.

(** X11. Whatever sequence of pointer, keyboard and resize events the
    script handles, starting from a graph in which every degree is the
    number of incident edges and at most 2 and every edge joins two
    neighbouring lattice nodes, the graph keeps both properties. *)
Theorem session_keeps_graph_invariants (s : state) (es : list event) :
  degreeInvariant (lattice s) → latticeEdges (lattice s) →
  degreeInvariant (lattice (session s es))
  ∧ latticeEdges (lattice (session s es)).
Proof.
  unfold session. revert s.
  induction es as [|e es IH]; intros s Hd Hl; [done|].
  cbn [fold_left]. apply IH; destruct e as [ev | ev | ev | key | cw ch];
    cbn [handle];
    rewrite ?lattice_pointerdown, ?lattice_pointermove, ?lattice_keydown,
      ?lattice_resize; try done.
  - by apply pointerup_invariant.
  - by apply pointerup_latticeEdges.
Qed.

Lemma session_graph_witness :
  let es := [PointerDown (PointerEvent 72 (288 # 5) 0 0);
             PointerUp (PointerEvent 72 (288 # 5) 0 0);
             KeyDown "-"; Resize 800 500] in
  degreeInvariant (lattice (session startState es))
  ∧ latticeEdges (lattice (session startState es)).
Proof.
  intros es.
  apply (session_keeps_graph_invariants startState es).
  - apply degreeInvariant_empty.
  - apply latticeEdges_empty.
Defined.

(** A tap on the midpoint of the edge (0,0)-(1,0) adds it; a second tap at
    the same place removes it. *)
Example tap_toggles_edge :
  let tap1 := [PointerDown (PointerEvent 72 (288 # 5) 0 0);
               PointerUp (PointerEvent 72 (288 # 5) 0 0)] in
  hasKey (lattice (session startState tap1)) "0,0|1,0" = true
  ∧ degreeOf (lattice (session startState tap1)) "1,0" = 1
  ∧ size (edges (lattice (session startState (tap1 ++ tap1)))) = 0%nat.
Proof. vm_compute. done. Qed.

(** ** Zoom and viewport extents *)

Lemma pointermove_scale s ev :
  zoom (pointermove s ev) = zoom s ∧ canv (pointermove s ev) = canv s
  ∧ w (view (pointermove s ev)) = w (view s)
  ∧ h (view (pointermove s ev)) = h (view s).
Proof.
  unfold pointermove.
  destruct (isPointerDown s); [|done].
  destruct (pointerStart s) as [o|]; [|done].
  by repeat case_match.
Qed.

Lemma keydown_pan_scale s key :
  zoomKey key = false →
  zoom (keydown s key) = zoom s ∧ canv (keydown s key) = canv s
  ∧ w (view (keydown s key)) = w (view s)
  ∧ h (view (keydown s key)) = h (view s).
Proof.
  unfold zoomKey. intros Hz.
  apply orb_false_iff in Hz as [Hz H4]. apply orb_false_iff in Hz as [Hz H3].
  apply orb_false_iff in Hz as [H1 H2].
  unfold keydown. rewrite H1, H2, H3, H4. cbn [orb].
  destruct (keyIs key "ArrowLeft"), (keyIs key "ArrowRight"),
    (keyIs key "ArrowUp"), (keyIs key "ArrowDown"); done.
Qed.

Lemma canv_keydown s key : canv (keydown s key) = canv s.
Proof.
  unfold keydown.
  repeat match goal with
         | |- context [if ?b then _ else _] => destruct b
         end; done.
Qed.

Lemma quotient_times (a z : Q) : ¬ (z == 0)%Q → (a / z * z == a)%Q.
Proof. intros Hz. field. exact Hz. Qed.

Lemma handle_scaled s e : scaled s → scaled (handle s e).
Proof.
  intros (Hlo & Hhi & Hw & Hh).
  destruct e as [ev | ev | ev | key | cw ch]; cbn [handle].
  - done.
  - destruct (pointermove_scale s ev) as (Ez & Ec & Ew & Eh).
    unfold scaled. by rewrite Ez, Ec, Ew, Eh.
  - destruct (pointerup_viewport s ev) as (Ez & Ev & Ec).
    unfold scaled. by rewrite Ez, Ev, Ec.
  - destruct (keydown_zoom_range s key Hlo Hhi) as (Hlo2 & Hhi2 & Hzk).
    destruct (zoomKey key) eqn:Ek.
    + destruct (Hzk eq_refl) as [Ew Eh].
      unfold scaled. rewrite Ew, Eh, canv_keydown.
      assert (Hnz : ¬ (zoom (keydown s key) == 0)%Q) by (intros E0; lra).
      split; [done|]. split; [done|].
      split; by apply quotient_times.
    + destruct (keydown_pan_scale s key Ek) as (Ez & Ec & Ew & Eh).
      unfold scaled. by rewrite Ez, Ec, Ew, Eh.
  - unfold scaled, resize. cbn.
    assert (Hnz : ¬ (zoom s == 0)%Q) by (intros E0; lra).
    split; [done|]. split; [done|]. split; by apply quotient_times.
Qed.

(** X12. Whatever sequence of pointer, keyboard and resize events the
    script handles, starting from a state whose zoom is within [[0.6, 8]]
    and whose viewport extents are the canvas size divided by the zoom, the
    zoom stays within [[0.6, 8]] and [w * zoom = canvas.width],
    [h * zoom = canvas.height] keep holding. *)
Theorem session_keeps_scale (s : state) (es : list event) :
  scaled s → scaled (session s es).
Proof.
  unfold session. revert s.
  induction es as [|e es IH]; intros s Hs; [done|].
  cbn [fold_left]. apply IH. by apply handle_scaled.
Qed.

Lemma startState_scaled : scaled startState.
Proof. vm_compute. repeat split; discriminate. Qed.

Lemma session_scale_witness :
  scaled (session startState [KeyDown "-"; Resize 800 500; KeyDown "+"]).
Proof.
  apply (session_keeps_scale startState
           [KeyDown "-"; Resize 800 500; KeyDown "+"]).
  apply startState_scaled.
Defined.

Lemma keydown_plus s :
  keydown s "+" = setZoom s (Qmin 8 (zoom s * (12 # 10))).
Proof.
  unfold keydown.
  change (keyIs "+" "ArrowLeft") with false.
  change (keyIs "+" "ArrowRight") with false.
  change (keyIs "+" "ArrowUp") with false.
  change (keyIs "+" "ArrowDown") with false.
  change (keyIs "+" "+") with true.
  change (keyIs "+" "-") with false.
  change (keyIs "+" "_") with false.
  reflexivity.
Qed.

Lemma keydown_minus s :
  keydown s "-" = setZoom s (Qmax (6 # 10) (zoom s / (12 # 10))).
Proof.
  unfold keydown.
  change (keyIs "-" "ArrowLeft") with false.
  change (keyIs "-" "ArrowRight") with false.
  change (keyIs "-" "ArrowUp") with false.
  change (keyIs "-" "ArrowDown") with false.
  change (keyIs "-" "+") with false.
  change (keyIs "-" "=") with false.
  change (keyIs "-" "-") with true.
  reflexivity.
Qed.

(** X13. Zooming in and then out with the keyboard brings the zoom back:
    from a zoom of at least 0.6 that the [+] key does not cap at 8, the
    keys [+] then [-] leave [zoom] as it was, [w] and [h] are again the
    canvas size divided by it, and the centre and the graph are
    untouched. *)
Theorem zoom_in_then_out_restores (s : state) :
  (6 # 10 <= zoom s)%Q → (zoom s * (12 # 10) <= 8)%Q →
  let s2 := keydown (keydown s "+") "-" in
  (zoom s2 == zoom s)%Q
  ∧ (w (view s2) == width (canv s) / zoom s)%Q
  ∧ (h (view s2) == height (canv s) / zoom s)%Q
  ∧ cx (view s2) = cx (view s) ∧ cy (view s2) = cy (view s)
  ∧ lattice s2 = lattice s.
Proof.
  intros Hlo Hhi. cbv zeta.
  rewrite keydown_minus, keydown_plus. unfold setZoom.
  cbn [zoom view canv lattice cx cy w h width height].
  set (z2 := Qmax (6 # 10) (Qmin 8 (zoom s * (12 # 10)) / (12 # 10))).
  assert (Hz : (z2 == zoom s)%Q).
  { subst z2. name_minmax. unfold Qdiv in *.
    change (/ (12 # 10))%Q with (10 # 12)%Q in *. lra. }
  rewrite Hz. split; [reflexivity|].
  split; [reflexivity|]. split; [reflexivity|]. done.
Qed.

Lemma zoom_in_then_out_witness :
  (zoom (keydown (keydown startState "+") "-") == zoom startState)%Q.
Proof.
  apply (zoom_in_then_out_restores startState); vm_compute; discriminate.
Defined.

(** ** Clamping and resizing *)

Lemma clampAxis_idempotent extent fullExtent c :
  (clampAxis extent fullExtent (clampAxis extent fullExtent c)
   == clampAxis extent fullExtent c)%Q.
Proof. unfold clampAxis. minmax_lra. Qed.

Lemma clampAxis_in_range extent fullExtent c :
  axisClamped extent fullExtent c → (clampAxis extent fullExtent c == c)%Q.
Proof. unfold axisClamped, clampAxis. intros [H1 H2]. minmax_lra. Qed.

Lemma clampAxis_compat extent fullExtent c d :
  (c == d)%Q → (clampAxis extent fullExtent c == clampAxis extent fullExtent d)%Q.
Proof. unfold clampAxis. intros E. minmax_lra. Qed.

Lemma orElseQ_cases a b :
  ((a == 0)%Q ∧ orElseQ a b = b) ∨ (¬ (a == 0)%Q ∧ orElseQ a b = a).
Proof.
  unfold orElseQ. destruct (Qeq_bool a 0) eqn:E.
  - left. split; [by apply Qeq_bool_iff | done].
  - right. split; [|done]. intros H. apply Qeq_bool_iff in H. congruence.
Qed.

Lemma resettle extent fullExtent c :
  (0 <= extent)%Q → (0 <= fullExtent)%Q →
  (clampAxis extent fullExtent
     (orElseQ (clampAxis extent fullExtent c) (extent / 2))
   == clampAxis extent fullExtent c)%Q.
Proof.
  intros He Hf.
  destruct (orElseQ_cases (clampAxis extent fullExtent c) (extent / 2))
    as [[E0 ->] | [_ ->]]; [|apply clampAxis_idempotent].
  revert E0. unfold clampAxis. intros E0. minmax_lra.
Qed.

(** X14. Handling the same resize twice changes nothing more: for a
    positive zoom and a container that is not of negative size, a second
    resize to the same size leaves zoom, canvas size, [w] and [h] as they
    are and the centre at the same position. *)
Theorem resize_twice_is_resize_once (s : state) (cw ch : Q) :
  (0 < zoom s)%Q → (0 <= cw)%Q → (0 <= ch)%Q →
  let s1 := resize s cw ch in
  let s2 := resize s1 cw ch in
  zoom s2 = zoom s1 ∧ canv s2 = canv s1
  ∧ w (view s2) = w (view s1) ∧ h (view s2) = h (view s1)
  ∧ (cx (view s2) == cx (view s1))%Q ∧ (cy (view s2) == cy (view s1))%Q
  ∧ lattice s2 = lattice s1.
Proof.
  intros Hz Hcw Hch. cbv zeta. unfold resize. cbn.
  assert (Hw : (0 <= cw / zoom s)%Q).
  { apply Qle_shift_div_l; [done|]. lra. }
  assert (Hh : (0 <= ch / zoom s)%Q).
  { apply Qle_shift_div_l; [done|]. lra. }
  repeat split; try done.
  - apply resettle; [done | by vm_compute].
  - apply resettle; [done | by vm_compute].
Qed.

Lemma resize_twice_witness :
  (cx (view (resize (resize startState 4000 600) 4000 600))
   == cx (view (resize startState 4000 600)))%Q.
Proof.
  assert (Hz : (0 < zoom startState)%Q) by reflexivity.
  assert (Hcw : (0 <= 4000)%Q) by discriminate.
  assert (Hch : (0 <= 600)%Q) by discriminate.
  destruct (resize_twice_is_resize_once startState 4000 600 Hz Hcw Hch)
    as (_ & _ & _ & _ & Hx & _).
  exact Hx.
Defined.

(** ** The screen scale *)



(** ** Tokens *)

Lemma there_urlSafeChar c :
  inAlphabet c = true → urlSafeChar (there c) = true.
Proof.
  destruct c as [[] [] [] [] [] [] [] []]; vm_compute; intros E;
    first [discriminate E | done].
Qed.

Lemma back_fixes c :
  inAlphabet c = true → back c = c.
Proof.
  destruct c as [[] [] [] [] [] [] [] []]; vm_compute; intros E;
    first [discriminate E | done].
Qed.

Lemma occurs_urlSafe c s :
  allInAlphabet s = true → occurs c (urlSafe s) = true →
  urlSafeChar c = true.
Proof.
  induction s as [|d s IH]; cbn [allInAlphabet urlSafe occurs]; [done|].
  intros Hd Hc. apply andb_true_iff in Hd as [Hd Hs].
  apply orb_true_iff in Hc as [Hc | Hc]; [|by apply IH].
  apply Ascii.eqb_eq in Hc. subst c. by apply there_urlSafeChar.
Qed.

Section Tokens.
Context `{Platform}.

Lemma token_is_urlSafe_body stateObj text :
  JSON_stringify stateObj = Some text →
  encodeStateToString stateObj
  = urlSafe (encBody (string_of_list_byte (TextEncoder_encode text))).
Proof.
  intros Hs. unfold encodeStateToString. rewrite Hs.
  rewrite replaceAll_urlSafe. unfold btoa.
  rewrite urlSafe_app. unfold padding. rewrite urlSafe_equals.
  apply stripEquals_urlSafe. apply encBody_alphabet.
Qed.

(** X16. Every character of a token produced by [encodeStateToString] is
    a letter, a digit, [-] or [_]: the token contains no [+], [/] or [=]
    and can be placed in a URL as it is. *)
Theorem token_is_url_safe (stateObj : json) (c : ascii) :
  occurs c (encodeStateToString stateObj) = true → urlSafeChar c = true.
Proof.
  destruct (JSON_stringify stateObj) as [text|] eqn:Hs.
  - rewrite (token_is_urlSafe_body stateObj text Hs).
    apply occurs_urlSafe. apply encBody_alphabet.
  - unfold encodeStateToString. rewrite Hs. done.
Qed.

End Tokens.

Lemma token_url_safe_witness :
  urlSafeChar "e" = true.
Proof.
  apply (@token_is_url_safe Reference.platform exampleState "e").
  by vm_compute.
Defined.

Lemma replaceBack_app s t :
  replaceAll "_" "/" (replaceAll "-" "+" (s +:+ t))
  = replaceAll "_" "/" (replaceAll "-" "+" s)
    +:+ replaceAll "_" "/" (replaceAll "-" "+" t).
Proof.
  induction s as [|c s IH]; [done|].
  rewrite append_cons. cbn [replaceAll]. by rewrite IH.
Qed.

Lemma replaceBack_equals n :
  replaceAll "_" "/" (replaceAll "-" "+" (equals n)) = equals n.
Proof. induction n as [|n IH]; [done|]. cbn. by rewrite IH. Qed.

Lemma replaceBack_alphabet s :
  allInAlphabet s = true → replaceAll "_" "/" (replaceAll "-" "+" s) = s.
Proof.
  induction s as [|c s IH]; [done|]. cbn [allInAlphabet replaceAll].
  intros Hc. apply andb_true_iff in Hc as [Hc Hs].
  rewrite (IH Hs). f_equal. exact (back_fixes c Hc).
Qed.

Lemma btoa_length binary : (String.length (btoa binary) mod 4 = 0)%nat.
Proof.
  unfold btoa, padding. rewrite length_app, length_equals.
  apply padded_length.
Qed.

Lemma padLoop_full s :
  (String.length s mod 4 = 0)%nat → padLoop 3 s = s.
Proof.
  intros E. rewrite padLoop_three. unfold padding. rewrite E.
  apply append_empty.
Qed.

(** Standard base64 text, with [+], [/] and padding, goes through the
    decoder's substitutions and padding loop unchanged. *)
Lemma standard_transport binary :
  padLoop 3 (replaceAll "_" "/" (replaceAll "-" "+" (btoa binary)))
  = btoa binary.
Proof.
  assert (E : replaceAll "_" "/" (replaceAll "-" "+" (btoa binary))
              = btoa binary).
  { unfold btoa, padding. rewrite replaceBack_app, replaceBack_equals.
    by rewrite replaceBack_alphabet by apply encBody_alphabet. }
  rewrite E. apply padLoop_full, btoa_length.
Qed.

(** The URL-safe text with its padding kept goes back to the standard
    text. *)
Lemma padded_transport binary :
  padLoop 3 (replaceAll "_" "/" (replaceAll "-" "+"
     (replaceAll "/" "_" (replaceAll "+" "-" (btoa binary)))))
  = btoa binary.
Proof.
  assert (E : replaceAll "_" "/" (replaceAll "-" "+"
                (replaceAll "/" "_" (replaceAll "+" "-" (btoa binary))))
              = btoa binary).
  { rewrite replaceAll_urlSafe. unfold btoa.
    rewrite urlSafe_app. unfold padding. rewrite urlSafe_equals.
    rewrite replaceBack_app, replaceBack_equals.
    by rewrite back_urlSafe by apply encBody_alphabet. }
  rewrite E. apply padLoop_full, btoa_length.
Qed.

Section Decoder.
Context `{Platform}.

(** X17. The decoder does not insist on the exact form the encoder
    writes: for every binary string, the standard base64 text (with [+],
    [/] and [=] padding) and the URL-safe text with its padding kept decode
    to the same value as the token (URL-safe, padding stripped). *)
Theorem decoder_accepts_padded_and_standard (binary : string) :
  let padded := replaceAll "/" "_" (replaceAll "+" "-" (btoa binary)) in
  let token := stripEquals padded in
  decodeStateFromString (btoa binary) = decodeStateFromString token
  ∧ decodeStateFromString padded = decodeStateFromString token.
Proof.
  cbv zeta. unfold decodeStateFromString.
  rewrite standard_transport, padded_transport, token_transport, atob_btoa.
  done.
Qed.

Lemma load_fragment payload queryState :
  loadStateFromURL ("#state=" +:+ payload) queryState
  = decodeStateFromString payload.
Proof. reflexivity. Qed.

(** X18. The state written into the fragment is the state read back:
    [loadStateFromURL] on the address ["#state=" + token] returns the
    payload's decoding whatever the query string holds (the fragment takes
    precedence), and for a state object that [JSON.stringify] and
    [JSON.parse] and the UTF-8 coder carry over unchanged, the fragment
    built from [encodeStateToString] loads as that state object. Without a
    [#state=] fragment and without a [state] query parameter the result is
    [null]. *)
Theorem fragment_roundtrip (s : json) (text hash : string)
  (queryState : option string) :
  (∀ payload, loadStateFromURL ("#state=" +:+ payload) queryState
              = decodeStateFromString payload)
  ∧ (JSON_stringify s = Some text →
     TextDecoder_decode (TextEncoder_encode text) = text →
     JSON_parse text = Some s →
     loadStateFromURL ("#state=" +:+ encodeStateToString s) queryState = s)
  ∧ (stripPrefix "#state=" hash = None → loadStateFromURL hash None = JNull).
Proof.
  split; [intros payload; apply load_fragment|]. split.
  - intros Hs Hu Hp. rewrite load_fragment.
    unfold decodeStateFromString, encodeStateToString.
    rewrite Hs, token_transport.
    by rewrite list_byte_of_string_of_list_byte, Hu, Hp.
  - intros E. unfold loadStateFromURL. by rewrite E.
Qed.

End Decoder.

Lemma fragment_roundtrip_witness :
  @loadStateFromURL Reference.platform
    ("#state=" +:+ @encodeStateToString Reference.platform exampleState)
    (Some "W10")
  = exampleState.
Proof.
  apply (proj1 (proj2 (@fragment_roundtrip Reference.platform exampleState
           (Reference.stringify exampleState) EmptyString (Some "W10"))));
    reflexivity.
Defined.

(** The decoder on the standard base64 of the example's JSON text. *)
Example standard_base64_accepted :
  @decodeStateFromString Reference.platform
    (btoa (Reference.stringify exampleState))
  = exampleState.
Proof. vm_compute. reflexivity. Qed.

(** ** Export and reload *)

Lemma split_plain c s : occurs c s = false → split c s = [s].
Proof.
  induction s as [|d s IH]; [done|]. cbn [occurs split].
  intros H. apply orb_false_iff in H as [Hd Hs].
  by rewrite Hd, (IH Hs).
Qed.

Lemma split_two c s t :
  occurs c s = false → occurs c t = false →
  split c (s +:+ String c t) = [s; t].
Proof.
  intros Hs Ht. induction s as [|d s IH].
  - change (EmptyString +:+ String c t) with (String c t).
    cbn [split]. by rewrite Ascii.eqb_refl, split_plain.
  - rewrite append_cons. cbn [occurs split] in *.
    apply orb_false_iff in Hs as [Hd Hs].
    by rewrite Hd, (IH Hs).
Qed.

Lemma decimalDigit_char n :
  (n < 10)%N → decimalDigit (pretty_N_char n) = Some (Z.of_N n).
Proof.
  intros Hn.
  assert (n = 0 ∨ n = 1 ∨ n = 2 ∨ n = 3 ∨ n = 4 ∨ n = 5 ∨ n = 6 ∨ n = 7
          ∨ n = 8 ∨ n = 9)%N as Hc by lia.
  repeat destruct Hc as [-> | Hc]; subst; reflexivity.
Qed.

Lemma digitsValue_go x :
  ∃ p, ∀ s acc,
    digitsValue (pretty_N_go x s) acc = digitsValue s (acc * p + Z.of_N x).
Proof.
  induction (N.lt_wf_0 x) as [x _ IH].
  assert (x = 0 ∨ 0 < x)%N as [-> | Hx] by lia.
  - exists 1. intros s acc. rewrite pretty_N_go_0. f_equal. lia.
  - destruct (IH (x `div` 10)%N) as [p Hp]; [by apply N.div_lt|].
    exists (p * 10). intros s acc.
    rewrite pretty_N_go_step by done. rewrite Hp. cbn [digitsValue].
    rewrite decimalDigit_char by (by apply N.mod_lt).
    f_equal.
    assert (E : Z.of_N x = Z.of_N (x `div` 10) * 10 + Z.of_N (x `mod` 10)).
    { rewrite (N.div_mod x 10) at 1 by done. lia. }
    lia.
Qed.

Lemma digitsValue_pretty_N (x : N) :
  digitsValue (pretty x) 0 = Some (Z.of_N x).
Proof.
  unfold pretty, pretty_N. case_decide as E.
  - subst x. reflexivity.
  - destruct (digitsValue_go x) as [p Hp]. rewrite Hp. cbn [digitsValue].
    f_equal; try lia.
Qed.

Lemma toNumber_digits s z :
  digitsValue s 0 = Some z → z ≠ 0 → toNumber s = Some z.
Proof.
  destruct s as [|c r]; cbn [toNumber digitsValue].
  - intros [= <-]. done.
  - intros Hd _. destruct (Ascii.eqb_spec c "-") as [-> | _]; [|done].
    cbn in Hd. discriminate Hd.
Qed.

(** [Number] reads back the decimal rendering of an integer. *)
Lemma toNumber_numToString z : toNumber (numToString z) = Some z.
Proof.
  unfold numToString, pretty, pretty_Z. destruct z as [|p|p].
  - reflexivity.
  - apply toNumber_digits; [|done].
    exact (digitsValue_pretty_N (Npos p)).
  - change ("-" +:+ pretty p) with (String "-" (pretty (Npos p))).
    cbn [toNumber]. rewrite Ascii.eqb_refl.
    pose proof (digitsValue_pretty_N (Npos p)) as Hd.
    destruct (pretty (Npos p)) as [|c r] eqn:E.
    + cbn in Hd. discriminate Hd.
    + rewrite Hd. reflexivity.
Qed.

Lemma split_nodeKey x y :
  split "," (nodeKey x y) = [numToString x; numToString y].
Proof.
  unfold nodeKey. change ("," +:+ numToString y) with (String "," (numToString y)).
  apply split_two; apply occurs_numToString; by left.
Qed.

Lemma exportTuple_ordered lo hi :
  exportTuple (keyOf lo +:+ "|" +:+ keyOf hi) = Some (tupleOf lo hi).
Proof.
  unfold exportTuple.
  change ("|" +:+ keyOf hi) with (String "|" (keyOf hi)).
  rewrite split_two by apply occurs_bar_nodeKey.
  unfold keyOf. rewrite !split_nodeKey, !toNumber_numToString. reflexivity.
Qed.

(** The tuple exported for the key of an edge lists its two nodes, in the
    order the key has them. *)
Lemma exportTuple_edgeKey a b :
  ∃ lo hi, edgeKey lo hi = edgeKey a b
           ∧ ((lo = a ∧ hi = b) ∨ (lo = b ∧ hi = a))
           ∧ exportTuple (edgeKey a b) = Some (tupleOf lo hi).
Proof.
  destruct (String.ltb (keyOf a) (keyOf b)) eqn:E.
  - exists a, b. split; [reflexivity|]. split; [by left|].
    unfold edgeKey, joinKeys. rewrite E. apply exportTuple_ordered.
  - exists b, a. split; [apply edgeKey_comm|]. split; [by right|].
    unfold edgeKey, joinKeys. rewrite E. apply exportTuple_ordered.
Qed.

Lemma listHits_perm n (l1 l2 : list string) :
  l1 ≡ₚ l2 → listHits n l1 = listHits n l2.
Proof.
  induction 1 as [|k l1 l2 _ IH|k1 k2 l|l1 l2 l3 _ IH1 _ IH2];
    cbn [listHits]; lia.
Qed.

Lemma count_insert_any (m : gmap string bool) d d' n k v :
  m !! k = None →
  incidentCount (Graph (<[k := v]> m) d') n
  = (incidentCount (Graph m d) n + hit n k)%nat.
Proof.
  intros Hk. unfold incidentCount, hit. cbn [edges].
  destruct (incident n k) eqn:E.
  - rewrite map_filter_insert_True by done.
    rewrite map_size_insert_None; [lia|].
    apply map_lookup_filter_None. by left.
  - rewrite map_filter_insert_False by (cbn; congruence).
    rewrite delete_id by done. lia.
Qed.

(** The incident count of the edge set is the count over any list of its
    keys. *)
Lemma incidentCount_listHits (m : gmap string bool) d n :
  incidentCount (Graph m d) n = listHits n (map_to_list m).*1.
Proof.
  induction m as [|k v m Hk _ IH] using map_first_key_ind.
  - unfold incidentCount. cbn [edges].
    by rewrite map_filter_empty, map_size_empty, map_to_list_empty.
  - rewrite (count_insert_any m d d n k v Hk), IH.
    rewrite (listHits_perm n (map_to_list (<[k:=v]> m)).*1
               ((k, v) :: map_to_list m).*1).
    + rewrite fmap_cons. cbn [fst listHits]. lia.
    + apply fmap_Permutation. by apply map_to_list_insert.
Qed.

Section ExportLoad.
Context `{Platform}.

Lemma nodeKeyOf_integers (x y : Z) :
  nodeKeyOf (JNum (inject_Z x)) (JNum (inject_Z y)) = nodeKey x y.
Proof.
  unfold nodeKeyOf, nodeKey. cbn [toStr].
  by rewrite !NumberToString_integer.
Qed.

(** Loading the tuple of an edge between two different nodes: the key
    enters the edge set and the two degrees grow by one. *)
Lemma loadEdge_tupleOf g lo hi :
  lo ≠ hi →
  (∀ k, hasKey (loadEdge g (tupleOf lo hi)) k = true
        ↔ k = edgeKey lo hi ∨ hasKey g k = true)
  ∧ (∀ n, degreeOf (loadEdge g (tupleOf lo hi)) (keyOf n)
          = degreeOf g (keyOf n)
            + Z.of_nat (hit (keyOf n) (edgeKey lo hi))).
Proof.
  intros Hne.
  destruct (loadEdge_loaded g (JNum (inject_Z (px lo))) (JNum (inject_Z (py lo)))
              (JNum (inject_Z (px hi))) (JNum (inject_Z (py hi))) [])
    as (He & Ha & Hb & Hother).
  rewrite !nodeKeyOf_integers in *.
  fold (keyOf lo) in *. fold (keyOf hi) in *.
  fold (edgeKey lo hi) in *. fold (tupleOf lo hi) in *.
  assert (Hk : keyOf lo ≠ keyOf hi) by (by apply keyOf_ne).
  rewrite decide_False in Ha, Hb by done.
  split.
  - intros k. rewrite !hasKey_true, He.
    destruct (decide (k = edgeKey lo hi)) as [-> | Hd].
    + rewrite lookup_insert_eq. split; [by left | eauto].
    + rewrite lookup_insert_ne by done. split; [by right|].
      by intros [? | ?].
  - intros n. rewrite hit_edgeKey by done.
    destruct (decide (n = lo)) as [-> | Hlo].
    + rewrite Ha. rewrite decide_False by done. lia.
    + destruct (decide (n = hi)) as [-> | Hhi].
      * rewrite Hb. lia.
      * rewrite !degreeOf_default, Hother; [lia|..];
          apply keyOf_ne; done.
Qed.

Lemma load_fold keys tuples :
  Forall2 exported keys tuples →
  ∀ g,
    (∀ k, hasKey (fold_left loadEdge tuples g) k = true
          ↔ k ∈ keys ∨ hasKey g k = true)
    ∧ (∀ n, degreeOf (fold_left loadEdge tuples g) (keyOf n)
            = degreeOf g (keyOf n) + Z.of_nat (listHits (keyOf n) keys)).
Proof.
  induction 1 as [|k t keys tuples (lo & hi & Hne & -> & ->) _ IH];
    intros g.
  - cbn. split; [|intros n; lia].
    intros k. rewrite elem_of_nil. tauto.
  - cbn [fold_left listHits].
    destruct (IH (loadEdge g (tupleOf lo hi))) as [He Hd].
    destruct (loadEdge_tupleOf g lo hi Hne) as [He1 Hd1].
    split.
    + intros k. rewrite He, He1, elem_of_cons. tauto.
    + intros n. rewrite Hd, Hd1. lia.
Qed.

End ExportLoad.

Lemma unitEdge_distinct a b : unitEdge a b → a ≠ b.
Proof. intros [[Hx Hy] | [Hx Hy]] ->; lia. Qed.

Lemma export_all (g : graph) (keys : list string) :
  latticeEdges g →
  (∀ k, k ∈ keys → is_Some (edges g !! k)) →
  ∃ tuples, mapM exportTuple keys = Some tuples ∧ Forall2 exported keys tuples.
Proof.
  intros Hg. induction keys as [|k keys IH]; intros Hin.
  - exists []. split; [done | constructor].
  - destruct IH as (tuples & Hm & Hf).
    { intros k' Hk'. apply Hin. by right. }
    destruct (Hg k) as (a & b & -> & _ & _ & Hu).
    { apply Hin. by left. }
    destruct (exportTuple_edgeKey a b) as (lo & hi & Ek & Hor & Ht).
    exists (tupleOf lo hi :: tuples). split.
    + cbn [mapM]. rewrite Ht. cbn. rewrite Hm. done.
    + constructor; [|done]. exists lo, hi.
      split; [|by split].
      apply unitEdge_distinct in Hu.
      destruct Hor as [[-> ->] | [-> ->]]; congruence.
Qed.

Section Bookmark.
Context `{Platform}.

(** X19. Exporting the state and loading it again restores the graph. For
    a graph in which every degree is the number of incident edges and at
    most 2 and every edge joins two neighbouring lattice nodes (as every
    graph edited through the handlers is), and for any order in which the
    keys of the edge set are visited, [exportState] produces a state
    object, and applying that object to any state gives a graph with the
    same edges ([edges.has] agrees on every key) and the same degree for
    every node. *)
Theorem export_then_load_restores_graph
  (s s0 : state) (keys : list string) :
  degreeInvariant (lattice s) → latticeEdges (lattice s) →
  keys ≡ₚ (map_to_list (edges (lattice s))).*1 →
  ∃ obj, exportState s keys = Some obj
    ∧ (∀ k, hasKey (lattice (applyState s0 obj)) k = hasKey (lattice s) k)
    ∧ (∀ n, degreeOf (lattice (applyState s0 obj)) (keyOf n)
            = degreeOf (lattice s) (keyOf n)).
Proof.
  intros Hdeg Hlat Hperm.
  assert (Hin : ∀ k, k ∈ keys ↔ is_Some (edges (lattice s) !! k)).
  { intros k. rewrite Hperm. rewrite list_elem_of_fmap. split.
    - intros ([k' v] & -> & Hkv). apply elem_of_map_to_list in Hkv. eauto.
    - intros [v Hv]. exists (k, v). split; [done|].
      by apply elem_of_map_to_list. }
  destruct (export_all (lattice s) keys Hlat) as (tuples & Hm & Hf).
  { intros k Hk. by apply Hin. }
  unfold exportState. rewrite Hm. cbn [mbind option_bind].
  eexists. split; [reflexivity|].
  rewrite applyState_lattice by reflexivity.
  unfold loadEdges. cbn [getProp List.find fst snd String.eqb Ascii.eqb
                         Bool.eqb fmap option_fmap option_map].
  destruct (load_fold keys tuples Hf emptyGraph) as [He Hd].
  split.
  - intros k. specialize (He k).
    assert (Hempty : hasKey emptyGraph k = false)
      by (apply hasKey_false; apply lookup_empty).
    rewrite Hempty in He.
    destruct (hasKey (lattice s) k) eqn:E1.
    + apply He. left. apply Hin. by apply hasKey_true.
    + destruct (hasKey (fold_left loadEdge tuples emptyGraph) k) eqn:E2;
        [|done].
      destruct (proj1 He eq_refl) as [Hk | Hk]; [|done].
      apply Hin, hasKey_true in Hk. congruence.
  - intros n. rewrite Hd.
    destruct (Hdeg n) as [Hn _]. rewrite Hn.
    assert (E0 : degreeOf emptyGraph (keyOf n) = 0).
    { rewrite degreeOf_default. unfold emptyGraph. cbn [degree].
      by rewrite lookup_empty. }
    rewrite E0, (listHits_perm _ _ _ Hperm).
    destruct (lattice s) as [m d].
    rewrite (incidentCount_listHits m d). cbn [edges]. lia.
Qed.

End Bookmark.

Lemma export_load_witness :
  let s := session startState
             [PointerDown (PointerEvent 72 (288 # 5) 0 0);
              PointerUp (PointerEvent 72 (288 # 5) 0 0)] in
  ∃ obj, @exportState s ["0,0|1,0"] = Some obj
    ∧ (∀ k, hasKey (lattice (@applyState Reference.platform startState obj)) k
            = hasKey (lattice s) k)
    ∧ (∀ n, degreeOf (lattice (@applyState Reference.platform startState obj))
              (keyOf n)
            = degreeOf (lattice s) (keyOf n)).
Proof.
  intros s.
  assert (Hs : degreeInvariant (lattice s) ∧ latticeEdges (lattice s)).
  { split.
    - apply pointerup_invariant. apply degreeInvariant_empty.
    - apply pointerup_latticeEdges. apply latticeEdges_empty. }
  destruct Hs as [Hd Hl].
  apply (@export_then_load_restores_graph Reference.platform s startState
           ["0,0|1,0"] Hd Hl).
  by vm_compute.
Defined.

(** The state object exported after one tap, on the reference platform. *)
Example exported_after_tap :
  let s := session startState
             [PointerDown (PointerEvent 72 (288 # 5) 0 0);
              PointerUp (PointerEvent 72 (288 # 5) 0 0)] in
  Reference.stringify <$> exportState s ["0,0|1,0"]
  = Some (Reference.stringify
            (JObj [("edges", JArr [JArr [JNum 0; JNum 0; JNum 1; JNum 0]]);
                   ("viewport", JObj [("cx", JNum (1125 # 8));
                                      ("cy", JNum (375 # 4));
                                      ("zoom", JNum (32 # 10))])])).
Proof. vm_compute. reflexivity. Qed.

Lemma Qltb_of_lt a b : (a < b)%Q → Qltb a b = true.
Proof.
  intros Hlt. unfold Qltb. apply negb_true_iff.
  destruct (Qle_bool b a) eqn:E; [|done].
  apply Qle_bool_iff in E. lra.
Qed.

Lemma clampAxis_same extent extent' fullExtent c :
  (extent' == extent)%Q → axisClamped extent fullExtent c →
  (clampAxis extent' fullExtent c == c)%Q.
Proof.
  unfold axisClamped, clampAxis. intros E [H1 H2]. minmax_lra.
Qed.

Section BookmarkViewport.
Context `{Platform}.

(** X20. Exporting the state and loading it again on a canvas of the same
    size restores the viewport: for a positive zoom, extents equal to the
    canvas size divided by the zoom and a centre within its bounds,
    applying the exported state object gives the same zoom, the same [w]
    and [h] and the same centre. *)
Theorem export_then_load_restores_viewport
  (s s0 : state) (keys : list string) (obj : json) :
  exportState s keys = Some obj →
  canv s0 = canv s →
  (0 < zoom s)%Q →
  (w (view s) * zoom s == width (canv s))%Q →
  (h (view s) * zoom s == height (canv s))%Q →
  centreClamped (view s) →
  zoom (applyState s0 obj) = zoom s
  ∧ (w (view (applyState s0 obj)) == w (view s))%Q
  ∧ (h (view (applyState s0 obj)) == h (view s))%Q
  ∧ (cx (view (applyState s0 obj)) == cx (view s))%Q
  ∧ (cy (view (applyState s0 obj)) == cy (view s))%Q.
Proof.
  intros Hexp Hc Hz Hw Hh [Hx Hy].
  unfold exportState in Hexp.
  destruct (mapM exportTuple keys) as [tuples|]; [|discriminate Hexp].
  cbn [mbind option_bind] in Hexp. injection Hexp as <-.
  assert (Hnz : ¬ (zoom s == 0)%Q) by (intros E; lra).
  assert (Ew : (width (canv s) / zoom s == w (view s))%Q).
  { rewrite <- Hw. field. exact Hnz. }
  assert (Eh : (height (canv s) / zoom s == h (view s))%Q).
  { rewrite <- Hh. field. exact Hnz. }
  unfold applyState. cbn [truthy negb].
  unfold loadViewport.
  cbn [getProp List.find fst snd String.eqb Ascii.eqb Bool.eqb fmap
       option_fmap option_map truthy andb asNumber].
  rewrite (Qltb_of_lt 0 (zoom s) Hz).
  cbn [zoom view canv cx cy w h setLattice]. rewrite Hc.
  split; [done|]. split; [exact Ew|]. split; [exact Eh|].
  split.
  - by apply (clampAxis_same (w (view s))).
  - by apply (clampAxis_same (h (view s))).
Qed.

(** X21. On start without a saved state, the top-left corner of the world
    is at the top-left corner of the canvas: for a canvas of positive size
    whose viewport at the initial zoom fits the world, [initialize] leaves
    the screen point (0,0) on the world point (0,0). *)
Theorem initialize_aligns_top_left (cw ch : Q) :
  (0 < cw)%Q → (0 < ch)%Q →
  (cw / INITIAL_ZOOM <= fullWidth)%Q → (ch / INITIAL_ZOOM <= fullHeight)%Q →
  let s := initialize cw ch JNull in
  (ptx (screenToFull (view s) (canv s) 0 0) == 0)%Q
  ∧ (pty (screenToFull (view s) (canv s) 0 0) == 0)%Q
  ∧ lattice s = emptyGraph ∧ zoom s = INITIAL_ZOOM.
Proof.
  intros Hcw Hch Hw Hh. cbv zeta.
  unfold initialize. cbn [truthy].
  unfold setView, screenToFull. cbn [view canv cx cy w h ptx pty width height
                                     lattice zoom].
  set (vw := (cw / INITIAL_ZOOM)%Q) in *.
  set (vh := (ch / INITIAL_ZOOM)%Q) in *.
  assert (Hvw : (0 <= vw)%Q).
  { subst vw. apply Qle_shift_div_l; [reflexivity|]. lra. }
  assert (Hvh : (0 <= vh)%Q).
  { subst vh. apply Qle_shift_div_l; [reflexivity|]. lra. }
  assert (Ex : (clampAxis vw fullWidth (vw / 2) == vw / 2)%Q).
  { apply clampAxis_in_range. unfold axisClamped.
    clearbody vw. halves. lra. }
  assert (Ey : (clampAxis vh fullHeight (vh / 2) == vh / 2)%Q).
  { apply clampAxis_in_range. unfold axisClamped.
    clearbody vh. halves. lra. }
  rewrite Ex, Ey. clearbody vw vh.
  split; [|split; [|done]]; field; by apply Qpos_nonzero.
Qed.

End BookmarkViewport.

Lemma export_load_viewport_witness :
  (cx (view (@applyState Reference.platform startState
               (JObj [("edges", JArr []);
                      ("viewport", JObj [("cx", JNum (cx (view startState)));
                                         ("cy", JNum (cy (view startState)));
                                         ("zoom", JNum (zoom startState))])])))
   == cx (view startState))%Q.
Proof.
  assert (Hz : (0 < zoom startState)%Q) by reflexivity.
  assert (Hw : (w (view startState) * zoom startState
                == width (canv startState))%Q) by reflexivity.
  assert (Hh : (h (view startState) * zoom startState
                == height (canv startState))%Q) by reflexivity.
  assert (Hc : centreClamped (view startState)).
  { vm_compute. repeat split; discriminate. }
  destruct (@export_then_load_restores_viewport Reference.platform
              startState startState [] _ eq_refl eq_refl Hz Hw Hh Hc)
    as (_ & _ & _ & Hx & _).
  exact Hx.
Defined.

Lemma initialize_witness :
  (ptx (screenToFull (view (@initialize Reference.platform 900 600 JNull))
          (canv (@initialize Reference.platform 900 600 JNull)) 0 0) == 0)%Q.
Proof.
  assert (H1 : (0 < 900)%Q) by reflexivity.
  assert (H2 : (0 < 600)%Q) by reflexivity.
  assert (H3 : (900 / INITIAL_ZOOM <= fullWidth)%Q) by (vm_compute; discriminate).
  assert (H4 : (600 / INITIAL_ZOOM <= fullHeight)%Q) by (vm_compute; discriminate).
  exact (proj1 (@initialize_aligns_top_left Reference.platform 900 600
                  H1 H2 H3 H4)).
Defined.

(** ** Tapping on an edge *)

Lemma round_unique (q : Q) (n : Z) :
  (inject_Z n <= q + (1 # 2))%Q → (q + (1 # 2) < inject_Z (n + 1))%Q →
  round q = n.
Proof.
  intros Hlo Hhi. unfold round.
  pose proof (Qfloor_le (q + (1 # 2))) as H1.
  pose proof (Qlt_floor (q + (1 # 2))) as H2.
  set (f := Qfloor (q + (1 # 2))) in *. clearbody f.
  assert (n < f + 1).
  { rewrite Zlt_Qlt. eapply Qle_lt_trans; eauto. }
  assert (f < n + 1).
  { rewrite Zlt_Qlt. eapply Qle_lt_trans; eauto. }
  lia.
Qed.

Lemma worldOf_linear (i : Z) : (worldOf i == 18 + 9 * inject_Z i)%Q.
Proof.
  unfold worldOf, BORDER, DOT_SPACING.
  rewrite inject_Z_plus, !inject_Z_mult.
  change (inject_Z 9) with 9%Q. change (inject_Z 2) with 2%Q. ring.
Qed.

(** The cell nearest to the midpoint of a lattice edge is the second end
    of that edge, so the edge is one of those the search looks at. *)
Lemma midpoint_candidate fullX fullY a b :
  inLattice a → inLattice b → unitEdge a b →
  (fullX == ptx (midpoint a b))%Q → (fullY == pty (midpoint a b))%Q →
  candidateEdge (nearestCell fullX fullY) a b.
Proof.
  intros Ha Hb Hu Ex Ey.
  split; [done|]. split; [done|]. split; [done|].
  unfold nearestCell. cbn [fst snd].
  unfold midpoint in Ex, Ey. cbn [ptx pty] in Ex, Ey.
  rewrite !worldOf_linear in Ex, Ey.
  change (inject_Z BORDER) with 18%Q.
  change (inject_Z DOT_SPACING) with 9%Q.
  destruct Hu as [[Hx Hy] | [Hx Hy]]; rewrite Hx, Hy in *.
  - rewrite inject_Z_plus in Ex. change (inject_Z 1) with 1%Q in Ex.
    rewrite (round_unique _ (px a + 1)), (round_unique _ (py a)).
    + lia.
    + rewrite Ey. unfold Qdiv. change (/ 9)%Q with (1 # 9)%Q. lra.
    + rewrite Ey, inject_Z_plus. change (inject_Z 1) with 1%Q.
      unfold Qdiv. change (/ 9)%Q with (1 # 9)%Q. lra.
    + rewrite Ex, inject_Z_plus. change (inject_Z 1) with 1%Q.
      unfold Qdiv. change (/ 9)%Q with (1 # 9)%Q. lra.
    + rewrite Ex, !inject_Z_plus. change (inject_Z 1) with 1%Q.
      unfold Qdiv. change (/ 9)%Q with (1 # 9)%Q. lra.
  - rewrite inject_Z_plus in Ey. change (inject_Z 1) with 1%Q in Ey.
    rewrite (round_unique _ (px a)), (round_unique _ (py a + 1)).
    + lia.
    + rewrite Ey, inject_Z_plus. change (inject_Z 1) with 1%Q.
      unfold Qdiv. change (/ 9)%Q with (1 # 9)%Q. lra.
    + rewrite Ey, !inject_Z_plus. change (inject_Z 1) with 1%Q.
      unfold Qdiv. change (/ 9)%Q with (1 # 9)%Q. lra.
    + rewrite Ex. unfold Qdiv. change (/ 9)%Q with (1 # 9)%Q. lra.
    + rewrite Ex, inject_Z_plus. change (inject_Z 1) with 1%Q.
      unfold Qdiv. change (/ 9)%Q with (1 # 9)%Q. lra.
Qed.

Lemma squares_vanish (u v : Q) :
  (u * u + v * v <= 0)%Q → (u == 0)%Q ∧ (v == 0)%Q.
Proof.
  intros H.
  assert (Hu : (0 <= u * u)%Q) by nra.
  assert (Hv : (0 <= v * v)%Q) by nra.
  split.
  - destruct (Qeq_dec u 0) as [E | E]; [done|]. exfalso.
    assert ((0 < u * u)%Q) by (destruct (Q_dec u 0) as [[?|?]|?]; [nra|nra|done]).
    lra.
  - destruct (Qeq_dec v 0) as [E | E]; [done|]. exfalso.
    assert ((0 < v * v)%Q) by (destruct (Q_dec v 0) as [[?|?]|?]; [nra|nra|done]).
    lra.
Qed.

Lemma squares_nonneg (u v : Q) : (0 <= u * u + v * v)%Q.
Proof. nra. Qed.

(** Two lattice edges with the same midpoint are the same edge. *)
Lemma midpoint_determines_edge a b a' b' :
  unitEdge a b → unitEdge a' b' →
  (ptx (midpoint a' b') == ptx (midpoint a b))%Q →
  (pty (midpoint a' b') == pty (midpoint a b))%Q →
  a' = a ∧ b' = b.
Proof.
  intros Hu Hu' Ex Ey. unfold midpoint in Ex, Ey. cbn [ptx pty] in Ex, Ey.
  rewrite !worldOf_linear in Ex, Ey.
  assert (Hx : px a' + px b' = px a + px b).
  { apply inject_Z_injective. rewrite !inject_Z_plus. lra. }
  assert (Hy : py a' + py b' = py a + py b).
  { apply inject_Z_injective. rewrite !inject_Z_plus. lra. }
  destruct a as [ax ay], b as [bx by'], a' as [ax' ay'], b' as [bx' by''].
  unfold unitEdge in *. cbn [px py] in *.
  split; f_equal; lia.
Qed.

(** The search on the midpoint of a lattice edge. *)
Lemma findNearest_midpoint_edge (fullX fullY : Q) (a b : node) :
  inLattice a → inLattice b → unitEdge a b →
  (fullX == ptx (midpoint a b))%Q → (fullY == pty (midpoint a b))%Q →
  ∃ c, findNearestEdgeToFull fullX fullY = Some c
       ∧ enda c = a ∧ endb c = b ∧ (dist c == 0)%Q.
Proof.
  intros Ha Hb Hu Ex Ey.
  pose proof (midpoint_candidate fullX fullY a b Ha Hb Hu Ex Ey) as Hcand.
  destruct Hcand as (_ & _ & _ & Hwx & Hwy).
  destruct (search_fold fullX fullY window None) as (Hs & _ & Hc); [done..|].
  set (cell := nearestCell fullX fullY) in *.
  assert (Ea : a = Node (cell.1 + (px a - cell.1)) (cell.2 + (py a - cell.2))).
  { destruct a as [ax ay]. cbn [px py]. f_equal; lia. }
  assert (Hw : (px a - cell.1, py a - cell.2) ∈ window)
    by (by apply window_spec).
  specialize (Hc (px a - cell.1, py a - cell.2) b Hw).
  cbn [fst snd] in Hc. rewrite <- Ea in Hc.
  destruct (Hc Ha Hb Hu) as (c & E & Hle).
  rewrite <- findNearest_fold in E.
  destruct (Hs c) as [(_ & _ & Hcu & _) Hdist].
  { by rewrite <- findNearest_fold. }
  assert (Hzero : (midpointDistance fullX fullY a b == 0)%Q).
  { unfold midpointDistance. unfold midpoint in Ex, Ey.
    cbn [ptx pty] in Ex, Ey. rewrite Ex, Ey. ring. }
  rewrite Hzero in Hle.
  assert (Hd0 : (dist c == 0)%Q).
  { apply Qle_antisym; [done|]. rewrite Hdist. unfold midpointDistance.
    cbv zeta. apply squares_nonneg. }
  rewrite Hdist in Hle. unfold midpointDistance in Hle.
  apply squares_vanish in Hle as [Hmx Hmy].
  destruct (midpoint_determines_edge a b (enda c) (endb c) Hu Hcu)
    as [E1 E2].
  { unfold midpoint. cbn [ptx pty]. unfold midpoint in Ex. cbn [ptx] in Ex.
    rewrite <- Ex. lra. }
  { unfold midpoint. cbn [ptx pty]. unfold midpoint in Ey. cbn [pty] in Ey.
    rewrite <- Ey. lra. }
  exists c. done.
Qed.

Lemma withinHitRadius_zero d r : (d == 0)%Q → withinHitRadius d r = true.
Proof.
  intros Hd. unfold withinHitRadius.
  destruct (Qle_bool r 0); [done|].
  apply Qle_bool_iff. rewrite Hd, Qmult_0_l. by vm_compute.
Qed.

(** A tap whose release point lies on the midpoint of a lattice edge. *)
Lemma tap_on_midpoint s ev a b :
  inLattice a → inLattice b → unitEdge a b →
  (ptx (screenToFull (view s) (canv s)
          (clientX ev - rectLeft ev) (clientY ev - rectTop ev))
   == ptx (midpoint a b))%Q →
  (pty (screenToFull (view s) (canv s)
          (clientX ev - rectLeft ev) (clientY ev - rectTop ev))
   == pty (midpoint a b))%Q →
  lattice (tap s ev) = toggled (lattice s) a b.
Proof.
  intros Ha Hb Hu Ex Ey. unfold tap.
  destruct (findNearest_midpoint_edge _ _ a b Ha Hb Hu Ex Ey)
    as (c & -> & <- & <- & Hd).
  rewrite (withinHitRadius_zero _ _ Hd). unfold toggled.
  by destruct (hasKey (lattice s) (edgeKey (enda c) (endb c))).
Qed.

(** A release within the threshold of a gesture that is not a drag runs
    the tap. *)
Lemma pointerup_runs_tap s ev o :
  isPointerDown s = true → pointerStart s = Some o → isDragging s = false →
  hypotExceeds (clientX ev - ox o) (clientY ev - oy o) DRAG_THRESHOLD = false →
  lattice (pointerup s ev)
  = lattice (tap (setPointer s false (Some o) false) ev).
Proof.
  destruct s as [z v c g pd ps dr]. cbn [isPointerDown pointerStart isDragging].
  intros -> -> -> Hup. unfold pointerup, setPointer.
  cbn [isPointerDown pointerStart isDragging negb zoom view canv lattice].
  rewrite Hup. reflexivity.
Qed.

(** X22. A tap on an edge toggles that edge: when a gesture stays within
    the drag threshold and its release point, taken to world coordinates,
    is the midpoint of the edge between two neighbouring in-bounds nodes
    [a] and [b], then after [pointerup] the graph is the one before the
    gesture with [removeEdge(a,b)] applied if the edge was there and
    [addEdge(a,b)] applied otherwise. *)
Theorem tap_on_edge_toggles_it
  (s : state) (down up : pointerEvent) (moves : list pointerEvent)
  (a b : node) :
  (∀ m, m ∈ moves → beyondThreshold down m = false) →
  beyondThreshold down up = false →
  inLattice a → inLattice b → unitEdge a b →
  (ptx (screenToFull (view s) (canv s)
          (clientX up - rectLeft up) (clientY up - rectTop up))
   == ptx (midpoint a b))%Q →
  (pty (screenToFull (view s) (canv s)
          (clientX up - rectLeft up) (clientY up - rectTop up))
   == pty (midpoint a b))%Q →
  lattice (pointerup (gesture s down moves) up) = toggled (lattice s) a b.
Proof.
  intros Hin Hup Ha Hb Hu Ex Ey.
  destruct (gesture_shape s down moves)
    as (Hd & Ho & _ & Hc & Hl & _ & _ & Hdr & Hv).
  set (s1 := gesture s down moves) in *. clearbody s1.
  assert (Edr : isDragging s1 = false).
  { destruct (isDragging s1) eqn:E; [|done].
    destruct (proj1 Hdr eq_refl) as (m & Hm & Hbm).
    rewrite (Hin m Hm) in Hbm. done. }
  specialize (Hv Edr).
  rewrite (pointerup_runs_tap s1 up _ Hd Ho Edr Hup).
  rewrite (tap_on_midpoint _ up a b Ha Hb Hu).
  - change (lattice (setPointer s1 false _ false)) with (lattice s1).
    by rewrite Hl.
  - change (view (setPointer s1 false _ false)) with (view s1).
    change (canv (setPointer s1 false _ false)) with (canv s1).
    rewrite Hv, Hc. exact Ex.
  - change (view (setPointer s1 false _ false)) with (view s1).
    change (canv (setPointer s1 false _ false)) with (canv s1).
    rewrite Hv, Hc. exact Ey.
Qed.

Lemma tap_on_edge_witness :
  let ev := PointerEvent 72 (288 # 5) 0 0 in
  lattice (pointerup (gesture startState ev []) ev)
  = toggled (lattice startState) (Node 0 0) (Node 1 0).
Proof.
  intros ev.
  apply (tap_on_edge_toggles_it startState ev ev [] (Node 0 0) (Node 1 0)).
  - intros m Hm. by apply elem_of_nil in Hm.
  - by vm_compute.
  - vm_compute. repeat split; discriminate.
  - vm_compute. repeat split; discriminate.
  - left. done.
  - reflexivity.
  - reflexivity.
Defined.

(** X23. A tap away from every edge changes nothing: when the canvas is
    wider than 0 relative to the viewport ([canvas.width / w > 0]) and the
    midpoint of every edge the search looks at is farther than
    [EDGE_HIT_RADIUS] screen pixels from the tapped point (squared world
    distance times the squared scale above 100), the tap leaves the graph
    as it is. *)
Theorem tap_away_from_edges_changes_nothing (s : state) (ev : pointerEvent) :
  let full := screenToFull (view s) (canv s)
                (clientX ev - rectLeft ev) (clientY ev - rectTop ev) in
  let r := (width (canv s) / w (view s))%Q in
  (0 < r)%Q →
  (∀ a b, candidateEdge (nearestCell (ptx full) (pty full)) a b →
          (EDGE_HIT_RADIUS * EDGE_HIT_RADIUS
           < midpointDistance (ptx full) (pty full) a b * (r * r))%Q) →
  lattice (tap s ev) = lattice s.
Proof.
  cbv zeta. intros Hr Hfar. unfold tap.
  destruct (findNearestEdgeToFull _ _) as [c|] eqn:E; [|done].
  apply findNearest_sound in E as [Hcand Hdist].
  specialize (Hfar _ _ Hcand). rewrite <- Hdist in Hfar.
  assert (Hw : withinHitRadius (dist c) (width (canv s) / w (view s)) = false).
  { unfold withinHitRadius.
    destruct (Qle_bool (width (canv s) / w (view s)) 0) eqn:E0.
    - apply Qle_bool_iff in E0. lra.
    - apply not_true_is_false. intros E1.
      apply Qle_bool_iff in E1. lra. }
  by rewrite Hw.
Qed.

Lemma tap_away_witness :
  let ev := PointerEvent 10 10 0 0 in
  lattice (tap startState ev) = lattice startState.
Proof.
  intros ev.
  apply (tap_away_from_edges_changes_nothing startState ev).
  - reflexivity.
  - intros a b (Ha & Hb & Hu & Hx & Hy).
    cbv zeta in *.
    assert (Ecell : nearestCell
              (ptx (screenToFull (view startState) (canv startState)
                      (clientX ev - rectLeft ev) (clientY ev - rectTop ev)))
              (pty (screenToFull (view startState) (canv startState)
                      (clientX ev - rectLeft ev) (clientY ev - rectTop ev)))
            = (-2, -2)) by (by vm_compute).
    rewrite Ecell in Hx, Hy. cbn [fst snd] in Hx, Hy.
    destruct Ha as [Hax Hay]. destruct a as [ax ay]. cbn [px py] in *.
    assert (ax = 0) as -> by lia. assert (ay = 0) as -> by lia.
    destruct b as [bx by']. destruct Hu as [[Ebx Eby] | [Ebx Eby]];
      cbn [px py] in Ebx, Eby; subst bx by'; by vm_compute.
Defined.
